(** * A* path finding on a grid: a shallow embedding of [pathfinding.js]

    The class [PathfindingGrid] keeps the grid dimensions, the start and end
    cells, the set of walls and the tiles it paints.  [findPath] runs A* with
    the Manhattan heuristic over the 4-connected grid and paints the result.

    Numbers are JavaScript numbers restricted to the values this program
    produces: integers (coordinates, scores) and [NaN] (arithmetic on a
    missing map entry).  Map and set keys are the strings built by the
    template [`${row},${col}`]. *)

From Stdlib Require Import Ascii.
From stdpp Require Import gmap strings pretty list sets.

Local Open Scope Z_scope.

(** ** Data model *)

(** A position object [{ row, col }]. *)
Record Pos := mkPos { row : Z; col : Z }.

Global Instance Pos_eq_dec : EqDecision Pos.
Proof. solve_decision. Defined.

(** [`${row},${col}`], also the closure [key] of [findPath]. *)
Definition key (pos : Pos) : string :=
  pretty (row pos) +:+ "," +:+ pretty (col pos).

(** The value of a score expression: an integer, or [NaN] when the
    expression read a missing entry. *)
Inductive num := NaN | Int (z : Z).

Global Instance num_eq_dec : EqDecision num.
Proof. solve_decision. Defined.

(** [Map.prototype.get] used as a number: [undefined] becomes [NaN]. *)
Definition get (m : gmap string num) (k : string) : num :=
  default NaN (m !! k).

(** [a < b] on numbers: false as soon as one side is [NaN]. *)
Definition num_lt (a b : num) : bool :=
  match a, b with
  | Int x, Int y => bool_decide (x < y)
  | _, _ => false
  end.

(** [a + b] on numbers. *)
Definition num_add (a b : num) : num :=
  match a, b with
  | Int x, Int y => Int (x + y)
  | _, _ => NaN
  end.

Inductive DragType := DragStart | DragEnd.

Global Instance DragType_eq_dec : EqDecision DragType.
Proof. solve_decision. Defined.

(** The class list of a tile after [renderGrid]: ['tile'] alone or with one
    more class. *)
Inductive TileClass :=
  | TilePlain | TileStart | TileEnd | TileWall | TilePath | TileVisited.

Global Instance TileClass_eq_dec : EqDecision TileClass.
Proof. solve_decision. Defined.

(** The fields of a [PathfindingGrid] object.  [grid] holds, for each tile
    element, the classes it currently carries. *)
Record PathfindingGrid := mkGrid {
  rows : Z;
  cols : Z;
  grid : list (list TileClass);
  startPos : Pos;
  endPos : Pos;
  walls : gset string;
  isDragging : bool;
  dragType : option DragType
}.

(** ** Queries *)

Definition isStart (this : PathfindingGrid) (r c : Z) : bool :=
  bool_decide (row (startPos this) = r) && bool_decide (col (startPos this) = c).

Definition isEnd (this : PathfindingGrid) (r c : Z) : bool :=
  bool_decide (row (endPos this) = r) && bool_decide (col (endPos this) = c).

Definition isWall (this : PathfindingGrid) (r c : Z) : bool :=
  bool_decide (key (mkPos r c) ∈ walls this).

(** up, down, left, right *)
Definition directions : list (Z * Z) := [(-1, 0); (1, 0); (0, -1); (0, 1)].

Definition getNeighbors (this : PathfindingGrid) (r c : Z) : list Pos :=
  foldl (fun neighbors '(dr, dc) =>
           let newRow := r + dr in
           let newCol := c + dc in
           if bool_decide (newRow >= 0) && bool_decide (newRow < rows this) &&
              bool_decide (newCol >= 0) && bool_decide (newCol < cols this) &&
              negb (isWall this newRow newCol)
           then neighbors ++ [mkPos newRow newCol]
           else neighbors) [] directions.

(** Manhattan distance *)
Definition heuristic (pos1 pos2 : Pos) : Z :=
  Z.abs (row pos1 - row pos2) + Z.abs (col pos1 - col pos2).

(** ** The search *)

(** The local variables of [findPath]. *)
Record SearchState := mkState {
  openSet : list Pos;
  cameFrom : gmap string Pos;
  gScore : gmap string num;
  fScore : gmap string num;
  visited : gset string
}.

(** The scan for the node with the lowest fScore: [rest] is what remains of
    [openSet] from index [i] on. *)
Fixpoint lowest (fS : gmap string num) (rest : list Pos) (i : nat)
    (current : Pos) (currentIdx : nat) : Pos * nat :=
  match rest with
  | [] => (current, currentIdx)
  | p :: rest' =>
      if num_lt (get fS (key p)) (get fS (key current))
      then lowest fS rest' (S i) p i
      else lowest fS rest' (S i) current currentIdx
  end.

(** The path reconstruction loop: [path.unshift(temp)] while [cameFrom] has
    an entry for [temp].  [fuel] bounds the number of iterations. *)
Fixpoint reconstruct (fuel : nat) (cF : gmap string Pos) (temp : Pos)
    (path : list Pos) : option (list Pos) :=
  match cF !! key temp with
  | None => Some path
  | Some prev =>
      match fuel with
      | O => None
      | S fuel' => reconstruct fuel' cF prev (temp :: path)
      end
  end.

(** The body of [for (const neighbor of neighbors)]. *)
Definition relax (end_ current : Pos) (st : SearchState) (neighbor : Pos)
    : SearchState :=
  let neighborKey := key neighbor in
  let tentativeGScore := num_add (get (gScore st) (key current)) (Int 1) in
  if negb (bool_decide (is_Some (gScore st !! neighborKey))) ||
     num_lt tentativeGScore (get (gScore st) neighborKey)
  then
    let cF := <[neighborKey := current]> (cameFrom st) in
    let gS := <[neighborKey := tentativeGScore]> (gScore st) in
    let fS := <[neighborKey :=
                  num_add tentativeGScore (Int (heuristic neighbor end_))]>
                (fScore st) in
    let oS := if existsb (fun pos => bool_decide (key pos = neighborKey))
                   (openSet st)
              then openSet st
              else openSet st ++ [neighbor] in
    mkState oS cF gS fS (visited st)
  else st.

(** What one search hands to [renderGrid] and to its caller. *)
Record SearchResult := mkResult {
  path : list Pos;
  visitedCells : gset string;
  found : bool
}.

(** The [while (openSet.length > 0)] loop.  [fuel] bounds the number of
    iterations, [rfuel] those of the reconstruction; [None] means the bound
    was too small. *)
Fixpoint search_loop (rfuel fuel : nat) (this : PathfindingGrid)
    (st : SearchState) : option SearchResult :=
  match fuel with
  | O => None
  | S fuel' =>
      match openSet st with
      | [] => Some (mkResult [] (visited st) false)
      | first :: rest =>
          let '(current, currentIdx) := lowest (fScore st) rest 1 first 0 in
          if bool_decide (row current = row (endPos this)) &&
             bool_decide (col current = col (endPos this))
          then
            p ← reconstruct rfuel (cameFrom st) current [];
            Some (mkResult p (visited st) true)
          else
            let st1 := mkState (delete currentIdx (openSet st)) (cameFrom st)
                         (gScore st) (fScore st)
                         ({[key current]} ∪ visited st) in
            let neighbors := getNeighbors this (row current) (col current) in
            search_loop rfuel fuel' this
              (foldl (relax (endPos this) current) st1 neighbors)
      end
  end.

(** The state before the first iteration. *)
Definition init_state (this : PathfindingGrid) : SearchState :=
  let start := startPos this in
  let end_ := endPos this in
  mkState [start] ∅
    {[key start := Int 0]}
    {[key start := Int (heuristic start end_)]}
    ∅.

Definition search (fuel : nat) (this : PathfindingGrid) : option SearchResult :=
  search_loop fuel fuel this (init_state this).

(** ** Painting *)

Definition tileClass (this : PathfindingGrid) (p : list Pos)
    (vis : gset string) (r c : Z) : TileClass :=
  if isStart this r c then TileStart
  else if isEnd this r c then TileEnd
  else if isWall this r c then TileWall
  else if existsb (fun q => bool_decide (row q = r) && bool_decide (col q = c)) p
       then TilePath
  else if bool_decide (key (mkPos r c) ∈ vis) then TileVisited
  else TilePlain.

Definition set_grid (this : PathfindingGrid) (t : list (list TileClass))
    : PathfindingGrid :=
  mkGrid (rows this) (cols this) t (startPos this) (endPos this)
         (walls this) (isDragging this) (dragType this).

Definition set_walls (this : PathfindingGrid) (w : gset string)
    : PathfindingGrid :=
  mkGrid (rows this) (cols this) (grid this) (startPos this) (endPos this)
         w (isDragging this) (dragType this).

(** [renderGrid(path, visited)]: every tile of the [rows] x [cols] matrix
    built by [initGrid] gets its class anew. *)
Definition renderGrid (this : PathfindingGrid) (p : list Pos)
    (vis : gset string) : PathfindingGrid :=
  set_grid this
    ((fun r => (fun c => tileClass this p vis r c) <$> seqZ 0 (cols this))
       <$> seqZ 0 (rows this)).

(** [findPath()]: the object after the call and the value returned, [None]
    for [null]. *)
Definition findPath (fuel : nat) (this : PathfindingGrid)
    : option (PathfindingGrid * option (list Pos)) :=
  r ← search fuel this;
  Some (renderGrid this (path r) (visitedCells r),
        if found r then Some (path r) else None).

(** ** Edits *)

Definition toggleWall (fuel : nat) (this : PathfindingGrid) (r c : Z)
    : option PathfindingGrid :=
  if isStart this r c || isEnd this r c then Some this
  else
    let k := key (mkPos r c) in
    let this1 := if bool_decide (k ∈ walls this)
                 then set_walls this (walls this ∖ {[k]})
                 else set_walls this ({[k]} ∪ walls this) in
    fst <$> findPath fuel this1.

Definition clearWalls (fuel : nat) (this : PathfindingGrid)
    : option PathfindingGrid :=
  fst <$> findPath fuel (set_walls this ∅).

(** [new PathfindingGrid(rows, cols)]: the fields are set, [initGrid] makes
    the tiles, [renderGrid()] paints them and [findPath()] runs once. *)
Definition new_PathfindingGrid (fuel : nat) (r c : Z)
    : option PathfindingGrid :=
  fst <$> findPath fuel
    (renderGrid (mkGrid r c [] (mkPos 5 5) (mkPos 15 15) ∅ false None) [] ∅).

(** ** Mouse events *)

Definition set_drag (this : PathfindingGrid) (d : bool) (t : option DragType)
    : PathfindingGrid :=
  mkGrid (rows this) (cols this) (grid this) (startPos this) (endPos this)
         (walls this) d t.

Definition set_startPos (this : PathfindingGrid) (p : Pos) : PathfindingGrid :=
  mkGrid (rows this) (cols this) (grid this) p (endPos this)
         (walls this) (isDragging this) (dragType this).

Definition set_endPos (this : PathfindingGrid) (p : Pos) : PathfindingGrid :=
  mkGrid (rows this) (cols this) (grid this) (startPos this) p
         (walls this) (isDragging this) (dragType this).

(** [handleMouseDown(e, row, col)]: pressing on start or end begins a drag,
    pressing elsewhere toggles the wall. *)
Definition handleMouseDown (fuel : nat) (this : PathfindingGrid) (r c : Z)
    : option PathfindingGrid :=
  if isStart this r c then Some (set_drag this true (Some DragStart))
  else if isEnd this r c then Some (set_drag this true (Some DragEnd))
  else toggleWall fuel this r c.

(** [handleMouseEnter(e, row, col)]: [dragType] is ['start'], ['end'] or
    [null], so it is truthy exactly when it is not [null]. *)
Definition handleMouseEnter (fuel : nat) (this : PathfindingGrid) (r c : Z)
    : option PathfindingGrid :=
  if isDragging this && bool_decide (is_Some (dragType this)) then
    if bool_decide (dragType this = Some DragStart) && negb (isEnd this r c)
    then fst <$> findPath fuel (set_startPos this (mkPos r c))
    else if bool_decide (dragType this = Some DragEnd) &&
            negb (isStart this r c)
    then fst <$> findPath fuel (set_endPos this (mkPos r c))
    else Some this
  else Some this.

Definition handleMouseUp (this : PathfindingGrid) : PathfindingGrid :=
  set_drag this false None.

(** The listeners [initGrid] installs: three per tile, [mouseup] on the
    document, [click] on the clear button. *)
Inductive Event :=
  | MouseDown (r c : Z)
  | MouseEnter (r c : Z)
  | MouseUp
  | ClearClick.

Definition handle (fuel : nat) (this : PathfindingGrid) (ev : Event)
    : option PathfindingGrid :=
  match ev with
  | MouseDown r c => handleMouseDown fuel this r c
  | MouseEnter r c => handleMouseEnter fuel this r c
  | MouseUp => Some (handleMouseUp this)
  | ClearClick => clearWalls fuel this
  end.

(** The events of a session, handled one after the other. *)
Fixpoint run (fuel : nat) (this : PathfindingGrid) (evs : list Event)
    : option PathfindingGrid :=
  match evs with
  | [] => Some this
  | ev :: evs' => this' ← handle fuel this ev; run fuel this' evs'
  end.

(** ** Vocabulary of the properties *)

(** Does the character [a] occur in [s]? *)
Fixpoint has_char (a : ascii) (s : string) : bool :=
  match s with
  | EmptyString => false
  | String b s' => bool_decide (a = b) || has_char a s'
  end.

(** Inside the grid: [0 <= row < rows] and [0 <= col < cols]. *)
Definition in_bounds (this : PathfindingGrid) (p : Pos) : Prop :=
  0 ≤ row p < rows this ∧ 0 ≤ col p < cols this.

(** 4-adjacent: Manhattan distance 1. *)
Definition adjacent (a b : Pos) : Prop := heuristic a b = 1.

(** The test of [getNeighbors] on a candidate cell. *)
Definition passable (this : PathfindingGrid) (r c : Z) : bool :=
  bool_decide (r >= 0) && bool_decide (r < rows this) &&
  bool_decide (c >= 0) && bool_decide (c < cols this) &&
  negb (isWall this r c).

(** Cells that can be walked to from [a]: each step enters a cell that
    [getNeighbors] offers, so a cell inside the grid that is not a wall. *)
Inductive reach (this : PathfindingGrid) (a : Pos) : Pos → Prop :=
  | reach_refl : reach this a a
  | reach_step b c :
      reach this a b → c ∈ getNeighbors this (row b) (col b) → reach this a c.

(** Every key the search can ever score: the start cell and the cells of
    the grid. *)
Definition universe (this : PathfindingGrid) : list string :=
  key (startPos this) ::
  (r ← seqZ 0 (rows this); c ← seqZ 0 (cols this); [key (mkPos r c)]).

(** The invariant of the main loop, for any grid: start is scored 0 and has
    no predecessor; a predecessor link goes from a cell to a neighbour
    scored at least one more; every scored key is that of a cell walked to
    from start, has an integer score below the number of scored keys, an
    fScore equal to score plus heuristic, and is expanded or open; open
    cells are scored; expanded cells differ from end. *)
Record Inv (this : PathfindingGrid) (st : SearchState) : Prop := {
  inv_start : gScore st !! key (startPos this) = Some (Int 0);
  inv_start_cf : cameFrom st !! key (startPos this) = None;
  inv_cf : ∀ k p, cameFrom st !! k = Some p →
    ∃ n vp vn, k = key n ∧ n ∈ getNeighbors this (row p) (col p) ∧
      gScore st !! key p = Some (Int vp) ∧ gScore st !! k = Some (Int vn) ∧
      vp + 1 ≤ vn;
  inv_g : ∀ k v, gScore st !! k = Some v →
    ∃ n z, k = key n ∧ v = Int z ∧ 0 ≤ z ∧ (Z.to_nat z < size (gScore st))%nat ∧
      reach this (startPos this) n ∧
      (n = startPos this ∨ is_Some (cameFrom st !! k)) ∧
      (k ∈ visited st ∨ n ∈ openSet st) ∧
      fScore st !! k = Some (Int (z + heuristic n (endPos this)));
  inv_open : ∀ n, n ∈ openSet st → is_Some (gScore st !! key n);
  inv_vis : ∀ k, k ∈ visited st →
    ∃ n, k = key n ∧ n ≠ endPos this ∧ is_Some (gScore st !! k)
}.

(** Every expanded cell has had all its neighbours scored. *)
Definition Closed (this : PathfindingGrid) (st : SearchState) : Prop :=
  ∀ n n', key n ∈ visited st → n' ∈ getNeighbors this (row n) (col n) →
    is_Some (gScore st !! key n').

(** The state [relax] builds when it records a better score. *)
Definition improved (end_ current : Pos) (gc : Z) (st : SearchState)
    (neighbor : Pos) : SearchState :=
  mkState
    (if existsb (fun pos => bool_decide (key pos = key neighbor)) (openSet st)
     then openSet st else openSet st ++ [neighbor])
    (<[key neighbor := current]> (cameFrom st))
    (<[key neighbor := Int (gc + 1)]> (gScore st))
    (<[key neighbor := Int (gc + 1 + heuristic neighbor end_)]> (fScore st))
    (visited st).

(** What a key weighs in the termination measure. *)
Definition weight (N : nat) (o : option num) : nat :=
  match o with
  | None => N
  | Some (Int z) => Z.to_nat z
  | Some NaN => 0
  end.

(** Twice the sum of the scores, an unscored key counting for the size of
    the universe, plus the length of the open set. *)
Definition potential (this : PathfindingGrid) (st : SearchState) : nat :=
  (2 * sum_list_with
         (fun k => weight (length (universe this)) (gScore st !! k))
         (universe this)
   + length (openSet st))%nat.

(** What relaxing neighbours of [c], scored [gc], does to a state. *)
Record Relaxed (this : PathfindingGrid) (c : Pos) (gc : Z)
    (st st' : SearchState) : Prop := {
  rl_inv : Inv this st';
  rl_vis : visited st' = visited st;
  rl_pot : (potential this st' ≤ potential this st)%nat;
  rl_cur : gScore st' !! key c = Some (Int gc);
  rl_mono : ∀ k z, gScore st !! k = Some (Int z) →
    ∃ z', gScore st' !! k = Some (Int z') ∧ z' ≤ z;
  rl_new : ∀ k z', gScore st' !! k = Some (Int z') →
    gScore st !! k = Some (Int z') ∨
    (∃ n, k = key n ∧ n ∈ getNeighbors this (row c) (col c) ∧ z' = gc + 1);
  rl_open : ∀ p, p ∈ openSet st → p ∈ openSet st'
}.

(** The fScore of a cell as an integer. *)
Definition fval (fS : gmap string num) (p : Pos) : Z :=
  match get fS (key p) with Int z => z | NaN => 0 end.

(** The state after [openSet.splice(currentIdx, 1)] and
    [visited.add(key(current))]. *)
Definition popped (st : SearchState) (current : Pos) (currentIdx : nat)
    : SearchState :=
  mkState (delete currentIdx (openSet st)) (cameFrom st) (gScore st)
          (fScore st) ({[key current]} ∪ visited st).

(** [walk this a l]: the cells of [l], in order, are successive moves from
    [a], each into a cell [getNeighbors] offers. *)
Fixpoint walk (this : PathfindingGrid) (a : Pos) (l : list Pos) : Prop :=
  match l with
  | [] => True
  | b :: l' => b ∈ getNeighbors this (row a) (col a) ∧ walk this b l'
  end.

(** A number of iterations that is always enough. *)
Definition enough_fuel (this : PathfindingGrid) : nat :=
  (2 * length (universe this) * length (universe this) + 2)%nat.

(** What a finished search guarantees, for any grid. *)
Record Post (this : PathfindingGrid) (r : SearchResult) : Prop := {
  post_found : found r = true →
    walk this (startPos this) (path r) ∧
    last (startPos this :: path r) = Some (endPos this) ∧
    ∀ p, p ∈ path r → p ≠ startPos this;
  post_none : found r = false →
    path r = [] ∧
    ∀ n, reach this (startPos this) n → key n ∈ visitedCells r;
  post_vis : ∀ k, k ∈ visitedCells r →
    ∃ n, k = key n ∧ n ≠ endPos this ∧ reach this (startPos this) n
}.

(** Two objects with the same dimensions, endpoints and walls. *)
Definition same_model (this this' : PathfindingGrid) : Prop :=
  rows this = rows this' ∧ cols this = cols this' ∧
  startPos this = startPos this' ∧ endPos this = endPos this' ∧
  walls this = walls this'.

(** A scored cell is [on_track] when its score is its Manhattan distance
    from start and it lies on a shortest route from start to end. *)
Definition on_track (this : PathfindingGrid) (st : SearchState) (n : Pos)
    : Prop :=
  gScore st !! key n = Some (Int (heuristic (startPos this) n)) ∧
  heuristic (startPos this) n + heuristic n (endPos this)
    = heuristic (startPos this) (endPos this).

(** The invariant of the search on a grid without walls: no score is below
    the Manhattan distance from start, and every expanded cell is on track
    with all its neighbours scored at most one more. *)
Record Opt (this : PathfindingGrid) (st : SearchState) : Prop := {
  opt_lower : ∀ n z, gScore st !! key n = Some (Int z) →
    heuristic (startPos this) n ≤ z;
  opt_vis : ∀ n, key n ∈ visited st →
    on_track this st n ∧
    ∀ n', n' ∈ getNeighbors this (row n) (col n) →
      ∃ z', gScore st !! key n' = Some (Int z') ∧
            z' ≤ heuristic (startPos this) n + 1
}.

(** The consecutive cells of [l] are 4-adjacent. *)
Fixpoint consecutive_adjacent (l : list Pos) : Prop :=
  match l with
  | a :: (b :: _) as l' => adjacent a b ∧ consecutive_adjacent l'
  | _ => True
  end.

(** The 3 x 3 grid of the corridor scenario. *)
Definition corridor : PathfindingGrid :=
  mkGrid 3 3 [] (mkPos 0 0) (mkPos 2 2) ∅ false None.

(** A 1 x 3 grid whose middle cell is a wall. *)
Definition blocked : PathfindingGrid :=
  mkGrid 1 3 [] (mkPos 0 0) (mkPos 0 2) {[key (mkPos 0 1)]} false None.

(** A 1 x 2 grid: start and end side by side. *)
Definition pair_grid : PathfindingGrid :=
  mkGrid 1 2 [] (mkPos 0 0) (mkPos 0 1) ∅ false None.

(** A 3 x 3 grid whose start and end coincide. *)
Definition same_cell : PathfindingGrid :=
  mkGrid 3 3 [] (mkPos 1 1) (mkPos 1 1) ∅ false None.

(** The four cells [getNeighbors] looks at, in its order: up, down, left,
    right. *)
Definition candidates (r c : Z) : list Pos :=
  [mkPos (r - 1) c; mkPos (r + 1) c; mkPos r (c - 1); mkPos r (c + 1)].

(** A tile event comes from a tile of the [rows] x [cols] matrix. *)
Definition event_in_grid (R C : Z) (ev : Event) : Prop :=
  match ev with
  | MouseDown r c | MouseEnter r c => 0 ≤ r < R ∧ 0 ≤ c < C
  | MouseUp | ClearClick => True
  end.

(** [linked cF a l]: each cell of [l] has its predecessor in [cF], the
    first one [a], every other one the cell before it. *)
Fixpoint linked (cF : gmap string Pos) (a : Pos) (l : list Pos) : Prop :=
  match l with
  | [] => True
  | b :: l' => cF !! key b = Some a ∧ linked cF b l'
  end.

(** Every recorded predecessor has been expanded. *)
Definition PredVisited (st : SearchState) : Prop :=
  ∀ k p, cameFrom st !! k = Some p → key p ∈ visited st.

(** An expanded cell that is not waiting in the open set has every
    neighbour scored at most one more than itself. *)
Definition Settled (this : PathfindingGrid) (st : SearchState) : Prop :=
  ∀ n n', key n ∈ visited st → n ∉ openSet st →
    n' ∈ getNeighbors this (row n) (col n) →
    ∃ z z', gScore st !! key n = Some (Int z) ∧
            gScore st !! key n' = Some (Int z') ∧ z' ≤ z + 1.

(** The class of the tile [this.grid[r][c]], when there is such a tile. *)
Definition tile_at (this : PathfindingGrid) (r c : Z) : option TileClass :=
  if bool_decide (0 ≤ r) && bool_decide (0 ≤ c)
  then grid this !! Z.to_nat r ≫= (fun tiles => tiles !! Z.to_nat c)
  else None.

(** The one change an event can make to dimensions, endpoints and walls:
    the clear button empties the wall set; a press on a cell that is
    neither start nor end adds or removes that cell's key; entering a cell
    while dragging start (end) moves start (end) there, unless the other
    endpoint is there. *)
Inductive Edit (this : PathfindingGrid) : Event → PathfindingGrid → Prop :=
  | edit_clear : Edit this ClearClick (set_walls this ∅)
  | edit_remove r c :
      key (mkPos r c) ∈ walls this →
      mkPos r c ≠ startPos this → mkPos r c ≠ endPos this →
      Edit this (MouseDown r c)
        (set_walls this (walls this ∖ {[key (mkPos r c)]}))
  | edit_add r c :
      key (mkPos r c) ∉ walls this →
      mkPos r c ≠ startPos this → mkPos r c ≠ endPos this →
      Edit this (MouseDown r c)
        (set_walls this ({[key (mkPos r c)]} ∪ walls this))
  | edit_start r c :
      isDragging this = true → dragType this = Some DragStart →
      mkPos r c ≠ endPos this →
      Edit this (MouseEnter r c) (set_startPos this (mkPos r c))
  | edit_end r c :
      isDragging this = true → dragType this = Some DragEnd →
      mkPos r c ≠ startPos this →
      Edit this (MouseEnter r c) (set_endPos this (mkPos r c)).

(** What an event does to the object: nothing, a change of the drag state
    alone, or one edit followed by a search and a repaint. *)
Inductive Handled (fuel : nat) (this : PathfindingGrid) (ev : Event)
    (this' : PathfindingGrid) : Prop :=
  | handled_nothing : this' = this → Handled fuel this ev this'
  | handled_drag d t :
      this' = set_drag this d t → (d = true ↔ is_Some t) →
      Handled fuel this ev this'
  | handled_edit X res :
      Edit this ev X → search fuel X = Some res →
      this' = renderGrid X (path res) (visitedCells res) →
      Handled fuel this ev this'.

(** What every object of a session on an [R] x [C] grid satisfies. *)
Record SessionInv (R C : Z) (this : PathfindingGrid) : Prop := {
  si_rows : rows this = R;
  si_cols : cols this = C;
  si_ends : startPos this ≠ endPos this;
  si_drag : isDragging this = true ↔ is_Some (dragType this)
}.

(** Endpoints and walls all lie inside the grid. *)
Definition Bounded (this : PathfindingGrid) : Prop :=
  in_bounds this (startPos this) ∧ in_bounds this (endPos this) ∧
  ∀ k, k ∈ walls this → ∃ p, k = key p ∧ in_bounds this p.

(** The tiles show the result of the search on the object as it is. *)
Definition Fresh (this : PathfindingGrid) : Prop :=
  ∀ fuel res, search fuel this = Some res →
    grid this = grid (renderGrid this (path res) (visitedCells res)).

(** The fields [new PathfindingGrid(R, C)] sets before it paints. *)
Definition blank (R C : Z) : PathfindingGrid :=
  mkGrid R C [] (mkPos 5 5) (mkPos 15 15) ∅ false None.

(** A cell that can be stepped on: inside the grid and not an obstacle. *)
Definition free_cell (this : PathfindingGrid) (p : Pos) : Prop :=
  in_bounds this p ∧ isWall this (row p) (col p) = false.

(** [free_route this a l b]: an obstacle-free 4-connected route from [a] to
    [b].  Standing on [a], the cells of [l] are stepped on one after the
    other: consecutive cells are 4-adjacent (Manhattan distance 1), every
    cell stepped on is inside the grid and not an obstacle, and the route
    ends on [b]. *)
Definition free_route (this : PathfindingGrid) (a : Pos) (l : list Pos)
    (b : Pos) : Prop :=
  consecutive_adjacent (a :: l) ∧ Forall (free_cell this) l ∧
  last (a :: l) = Some b.

(** [b] is reachable from [a] through non-obstacle cells. *)
Definition reachable (this : PathfindingGrid) (a b : Pos) : Prop :=
  ∃ l, free_route this a l b.

(** A 3 x 3 grid whose end cell (2,2) is enclosed by the walls (1,2) and
    (2,1); six cells can be reached from start (0,0). *)
Definition enclosed : PathfindingGrid :=
  mkGrid 3 3 [] (mkPos 0 0) (mkPos 2 2)
         ({[key (mkPos 1 2)]} ∪ {[key (mkPos 2 1)]}) false None.

(** * Properties *)

(** ** Keys are injective *)

Lemma has_char_app a s t :
  has_char a (s +:+ t) = has_char a s || has_char a t.
Proof. induction s as [|b s IH]; simpl; [done|]. by rewrite IH, orb_assoc. Qed.

Lemma pretty_N_char_no_comma x : pretty_N_char x ≠ ","%char.
Proof. unfold pretty_N_char. by repeat case_match. Qed.

Lemma pretty_N_go_no_comma x s :
  has_char "," s = false → has_char "," (pretty_N_go x s) = false.
Proof.
  revert s. induction (N.lt_wf_0 x) as [x _ IH]; intros s Hs.
  destruct (decide (x = 0%N)) as [->|Hx]; [by rewrite pretty_N_go_0|].
  rewrite pretty_N_go_step by lia. apply IH.
  - apply N.div_lt; lia.
  - simpl. rewrite Hs, orb_false_r. apply bool_decide_eq_false.
    intros E. by apply (pretty_N_char_no_comma (x `mod` 10)%N).
Qed.

Lemma pretty_N_no_comma (x : N) : has_char "," (pretty x) = false.
Proof.
  unfold pretty, pretty_N. case_decide; [done|].
  by apply pretty_N_go_no_comma.
Qed.

Lemma pretty_Z_no_comma (z : Z) : has_char "," (pretty z) = false.
Proof.
  destruct z as [|p|p]; unfold pretty, pretty_Z; [done|..].
  - apply pretty_N_no_comma.
  - rewrite has_char_app. simpl. apply pretty_N_no_comma.
Qed.

Lemma sep_app_inj a s1 s2 t1 t2 :
  has_char a s1 = false → has_char a s2 = false →
  s1 +:+ String a t1 = s2 +:+ String a t2 → s1 = s2 ∧ t1 = t2.
Proof.
  revert s2. induction s1 as [|b s1 IH]; intros [|c s2]; simpl; intros H1 H2 E.
  - by simplify_eq.
  - simplify_eq. rewrite bool_decide_eq_true_2 in H2 by done. done.
  - simplify_eq. rewrite bool_decide_eq_true_2 in H1 by done. done.
  - apply orb_false_iff in H1 as [_ H1]. apply orb_false_iff in H2 as [_ H2].
    simplify_eq. destruct (IH s2 H1 H2) as [-> ->]; [done|done].
Qed.

Global Instance key_inj : Inj (=) (=) key.
Proof.
  intros [r1 c1] [r2 c2]. unfold key. simpl. intros E.
  apply sep_app_inj in E as [Er Ec]; [|apply pretty_Z_no_comma..].
  apply (inj pretty) in Er. apply (inj pretty) in Ec. by subst.
Qed.

(** ** Neighbours, adjacency, reachability *)

Lemma passable_spec this r c :
  passable this r c = true ↔
    in_bounds this (mkPos r c) ∧ isWall this r c = false.
Proof.
  unfold passable, in_bounds. simpl.
  rewrite !andb_true_iff, !bool_decide_eq_true, negb_true_iff. intuition lia.
Qed.

Lemma getNeighbors_unfold this r c :
  getNeighbors this r c =
    (if passable this (r + -1) (c + 0) then [mkPos (r + -1) (c + 0)] else []) ++
    (if passable this (r + 1) (c + 0) then [mkPos (r + 1) (c + 0)] else []) ++
    (if passable this (r + 0) (c + -1) then [mkPos (r + 0) (c + -1)] else []) ++
    (if passable this (r + 0) (c + 1) then [mkPos (r + 0) (c + 1)] else []).
Proof.
  unfold getNeighbors, directions, passable. simpl.
  repeat case_match; reflexivity.
Qed.

Lemma elem_of_if_singleton {A} (b : bool) (x y : A) :
  y ∈ (if b then [x] else []) ↔ b = true ∧ y = x.
Proof.
  destruct b; [rewrite list_elem_of_singleton|rewrite elem_of_nil]; naive_solver.
Qed.

Lemma elem_of_getNeighbors this r c n :
  n ∈ getNeighbors this r c ↔
    in_bounds this n ∧ isWall this (row n) (col n) = false ∧
    ((row n = r - 1 ∧ col n = c) ∨ (row n = r + 1 ∧ col n = c) ∨
     (row n = r ∧ col n = c - 1) ∨ (row n = r ∧ col n = c + 1)).
Proof.
  rewrite getNeighbors_unfold, !elem_of_app, !elem_of_if_singleton.
  rewrite !passable_spec. destruct n as [nr nc]. simpl.
  replace (r + 0) with r by lia. replace (c + 0) with c by lia.
  replace (r + -1) with (r - 1) by lia. replace (c + -1) with (c - 1) by lia.
  split.
  - intros [[? E]|[[? E]|[[? E]|[? E]]]]; injection E as -> ->; naive_solver.
  - intros (? & ? & [[-> ->]|[[-> ->]|[[-> ->]|[-> ->]]]]); naive_solver.
Qed.

Lemma getNeighbors_adjacent this a n :
  n ∈ getNeighbors this (row a) (col a) → adjacent a n.
Proof.
  rewrite elem_of_getNeighbors. unfold adjacent, heuristic. lia.
Qed.

Lemma getNeighbors_in_bounds this r c n :
  n ∈ getNeighbors this r c → in_bounds this n.
Proof. rewrite elem_of_getNeighbors. tauto. Qed.

Lemma getNeighbors_not_wall this r c n :
  n ∈ getNeighbors this r c → key n ∉ walls this.
Proof.
  rewrite elem_of_getNeighbors. intros (_ & Hw & _).
  unfold isWall in Hw. apply bool_decide_eq_false in Hw. by destruct n.
Qed.

Lemma reach_in_bounds this a b :
  reach this a b → b = a ∨ (in_bounds this b ∧ key b ∉ walls this).
Proof.
  destruct 1; [by left|right].
  eauto using getNeighbors_in_bounds, getNeighbors_not_wall.
Qed.

(** ** The loop invariant *)

Lemma in_bounds_universe this p :
  in_bounds this p → key p ∈ universe this.
Proof.
  intros [Hr Hc]. unfold universe. right.
  apply list_elem_of_bind. exists (row p). split.
  - apply list_elem_of_bind. exists (col p). split.
    + destruct p. simpl. apply list_elem_of_singleton. done.
    + apply elem_of_seqZ. lia.
  - apply elem_of_seqZ. lia.
Qed.

Lemma reach_universe this b :
  reach this (startPos this) b → key b ∈ universe this.
Proof.
  intros [->|[? _]]%reach_in_bounds.
  - by left.
  - by apply in_bounds_universe.
Qed.

Lemma Inv_init this : Inv this (init_state this).
Proof.
  unfold init_state. split; simpl.
  - apply lookup_singleton_eq.
  - apply lookup_empty.
  - intros k p H. by rewrite lookup_empty in H.
  - intros k v [<- <-]%lookup_singleton_Some.
    exists (startPos this), 0. rewrite map_size_singleton.
    repeat split; try done; try lia.
    + constructor.
    + by left.
    + right. by left.
    + apply lookup_singleton_eq.
  - intros n ->%list_elem_of_singleton. rewrite lookup_singleton_eq. eauto.
  - intros k H. by apply not_elem_of_empty in H.
Qed.

Lemma Closed_init this : Closed this (init_state this).
Proof. intros n n' H. by apply not_elem_of_empty in H. Qed.

Lemma Inv_lookup this st n :
  Inv this st → is_Some (gScore st !! key n) →
  ∃ z, gScore st !! key n = Some (Int z) ∧ 0 ≤ z ∧
    (Z.to_nat z < size (gScore st))%nat ∧
    reach this (startPos this) n ∧
    (n = startPos this ∨ is_Some (cameFrom st !! key n)) ∧
    (key n ∈ visited st ∨ n ∈ openSet st) ∧
    fScore st !! key n = Some (Int (z + heuristic n (endPos this))).
Proof.
  intros HI [v Hv].
  destruct (inv_g _ _ HI _ _ Hv) as (n' & z & E & -> & ?).
  apply (inj key) in E as <-. eauto.
Qed.

Lemma size_list_to_set_le (l : list string) :
  (size (list_to_set l : gset string) ≤ length l)%nat.
Proof.
  induction l as [|x l IH].
  - by rewrite list_to_set_nil, size_empty.
  - rewrite list_to_set_cons, size_union_alt, size_singleton. simpl.
    assert (size (list_to_set l ∖ {[x]} : gset string)
            ≤ size (list_to_set l : gset string))%nat
      by (apply subseteq_size; set_solver).
    lia.
Qed.

Lemma Inv_size this st :
  Inv this st → (size (gScore st) ≤ length (universe this))%nat.
Proof.
  intros HI. rewrite <-size_dom.
  etrans; [|apply size_list_to_set_le].
  apply subseteq_size. intros k [v Hv]%elem_of_dom.
  destruct (inv_g _ _ HI _ _ Hv) as (n & z & -> & _ & _ & _ & Hr & _).
  apply elem_of_list_to_set. by apply reach_universe.
Qed.

(** ** One relaxation *)

Lemma relax_cases end_ c gc st n :
  gScore st !! key c = Some (Int gc) →
  (∀ v, gScore st !! key n = Some v → ∃ z, v = Int z) →
  (relax end_ c st n = st ∧
     ∃ zo, gScore st !! key n = Some (Int zo) ∧ zo ≤ gc + 1) ∨
  (relax end_ c st n = improved end_ c gc st n ∧
     (gScore st !! key n = None ∨
      ∃ zo, gScore st !! key n = Some (Int zo) ∧ gc + 1 < zo)).
Proof.
  intros Hc Hint. unfold relax, improved, get. rewrite Hc. simpl.
  destruct (gScore st !! key n) as [v|] eqn:Hn.
  - destruct (Hint v eq_refl) as [zo ->]. simpl.
    case_bool_decide.
    + right. split; [done|]. right. eauto.
    + left. split; [done|]. exists zo. split; [done|lia].
  - simpl. right. split; [done|]. by left.
Qed.

Lemma elem_of_improved_openSet end_ c gc st n p :
  p ∈ openSet (improved end_ c gc st n) ↔ p ∈ openSet st ∨ p = n.
Proof.
  simpl. destruct (existsb _ _) eqn:E.
  - split; [by left|]. intros [?| ->]; [done|].
    apply existsb_exists in E as (q & Hq & Hk).
    apply bool_decide_eq_true in Hk. apply (inj key) in Hk as ->.
    by apply list_elem_of_In.
  - rewrite elem_of_app, list_elem_of_singleton. done.
Qed.

Lemma improved_size end_ c gc st n :
  (size (gScore st) ≤ size (gScore (improved end_ c gc st n)))%nat.
Proof.
  simpl. destruct (gScore st !! key n) eqn:E.
  - rewrite (map_size_insert_Some _ _ _ (mk_is_Some _ _ E)). lia.
  - rewrite map_size_insert_None by done. lia.
Qed.

Lemma improved_Inv this st c gc n :
  Inv this st →
  gScore st !! key c = Some (Int gc) →
  n ∈ getNeighbors this (row c) (col c) →
  (gScore st !! key n = None ∨
   ∃ zo, gScore st !! key n = Some (Int zo) ∧ gc + 1 < zo) →
  Inv this (improved (endPos this) c gc st n).
Proof.
  intros HI Hc Hn Hold.
  destruct (Inv_lookup _ _ c HI (mk_is_Some _ _ Hc))
    as (gc' & Hc' & Hgc & Hsz & Hreach & _).
  assert (gc' = gc) as -> by congruence. clear Hc'.
  assert (key n ≠ key c) as Hnc.
  { intros ->%(inj key). apply getNeighbors_adjacent in Hn.
    unfold adjacent, heuristic in Hn. lia. }
  assert (key n ≠ key (startPos this)) as Hns.
  { intros E. rewrite E, (inv_start _ _ HI) in Hold.
    destruct Hold as [|(zo & ? & ?)]; [done|]. simplify_eq. lia. }
  pose proof (improved_size (endPos this) c gc st n) as Hsize.
  assert (Z.to_nat (gc + 1) < size (gScore (improved (endPos this) c gc st n)))%nat
    as Hnew.
  { simpl. destruct Hold as [Hnone|(zo & Hzo & Hlt)].
    - rewrite map_size_insert_None by done. lia.
    - rewrite (map_size_insert_Some _ _ _ (mk_is_Some _ _ Hzo)).
      destruct (Inv_lookup _ _ n HI (mk_is_Some _ _ Hzo))
        as (zo' & Hzo' & ? & ? & _).
      assert (zo' = zo) as -> by congruence. lia. }
  split.
  - simpl. rewrite lookup_insert_ne by done. apply HI.
  - simpl. rewrite lookup_insert_ne by done. apply HI.
  - intros k p. simpl. rewrite lookup_insert.
    case_decide as Hk.
    + intros [= <-]. subst k. exists n, gc, (gc + 1).
      rewrite lookup_insert_ne by done. rewrite lookup_insert_eq.
      repeat split; try done; try lia.
    + intros Hp. destruct (inv_cf _ _ HI _ _ Hp) as (m & vp & vn & -> & Hm & Hvp & Hvn & Hle).
      rewrite (lookup_insert_ne _ _ (key m)) by done.
      destruct (decide (key n = key p)) as [E|E].
      * exists m, (gc + 1), vn. rewrite <-E, lookup_insert_eq.
        repeat split; try done.
        destruct Hold as [Hnone|(zo & Hzo & Hlt)]; [congruence|].
        rewrite E in Hzo. simplify_eq. lia.
      * exists m, vp, vn. rewrite lookup_insert_ne by done. done.
  - intros k v. setoid_rewrite elem_of_improved_openSet.
    cbn [gScore cameFrom visited fScore improved]. rewrite !lookup_insert.
    case_decide as Hk.
    + intros [= <-]. subst k. exists n, (gc + 1).
      repeat split; try done; try lia.
      * by eapply reach_step.
      * right. eauto.
      * right. by right.
    + intros Hv. destruct (inv_g _ _ HI _ _ Hv)
        as (m & z & -> & -> & ? & ? & ? & ? & ? & ?).
      exists m, z. simpl in Hsize. repeat split; try done; try lia. tauto.
  - intros p. rewrite elem_of_improved_openSet. simpl. rewrite lookup_insert.
    case_decide; [eauto|]. intros [?| ->]; [|done]. by apply HI.
  - intros k Hk. simpl in Hk. destruct (inv_vis _ _ HI _ Hk) as (m & -> & ? & ?).
    exists m. repeat split; try done. simpl. rewrite lookup_insert.
    case_decide; eauto.
Qed.

(** ** The termination measure *)

Lemma sum_list_with_le {A} (f g : A → nat) l :
  (∀ y, (g y ≤ f y)%nat) → (sum_list_with g l ≤ sum_list_with f l)%nat.
Proof.
  intros Hle. induction l as [|y l IH]; simpl; [lia|].
  specialize (Hle y). lia.
Qed.

Lemma sum_list_with_lt {A} (f g : A → nat) l x :
  (∀ y, (g y ≤ f y)%nat) → x ∈ l → (g x < f x)%nat →
  (sum_list_with g l < sum_list_with f l)%nat.
Proof.
  intros Hle Hx Hlt. induction Hx as [x l|x y l Hx IH]; simpl.
  - pose proof (sum_list_with_le f g l Hle). lia.
  - specialize (Hle y). lia.
Qed.

Lemma improved_potential this st c gc n :
  Inv this st →
  gScore st !! key c = Some (Int gc) →
  n ∈ getNeighbors this (row c) (col c) →
  (gScore st !! key n = None ∨
   ∃ zo, gScore st !! key n = Some (Int zo) ∧ gc + 1 < zo) →
  (potential this (improved (endPos this) c gc st n) < potential this st)%nat.
Proof.
  intros HI Hc Hn Hold.
  pose proof (improved_Inv _ _ _ _ _ HI Hc Hn Hold) as HI'.
  pose proof (Inv_size _ _ HI') as Hsz'.
  destruct (Inv_lookup _ _ c HI (mk_is_Some _ _ Hc)) as (gc' & Hc' & Hgc & _).
  assert (gc' = gc) as -> by congruence.
  destruct (Inv_lookup this _ n HI') as (z' & Hz' & _ & Hlt' & _).
  { simpl. rewrite lookup_insert_eq. eauto. }
  simpl in Hz'. rewrite lookup_insert_eq in Hz'. injection Hz' as <-.
  unfold potential. remember (length (universe this)) as N eqn:HN.
  clear HN.
  assert (length (openSet (improved (endPos this) c gc st n))
          ≤ S (length (openSet st)))%nat as Hlen.
  { simpl. destruct (existsb _ _); [lia|]. rewrite length_app. simpl. lia. }
  enough (sum_list_with
            (fun k => weight N (gScore (improved (endPos this) c gc st n) !! k))
            (universe this)
          < sum_list_with (fun k => weight N (gScore st !! k)) (universe this))%nat
    by lia.
  apply sum_list_with_lt with (x := key n).
  - intros k. simpl. rewrite lookup_insert. case_decide as Hk; [|done].
    subst k. simpl.
    destruct Hold as [->|(zo & -> & ?)]; simpl; lia.
  - apply in_bounds_universe. eapply getNeighbors_in_bounds, Hn.
  - simpl. rewrite lookup_insert_eq. simpl.
    destruct Hold as [->|(zo & -> & ?)]; simpl; lia.
Qed.

(** ** The neighbour loop *)

Lemma Relaxed_refl this c gc st :
  Inv this st → gScore st !! key c = Some (Int gc) → Relaxed this c gc st st.
Proof. intros HI Hc. split; eauto. intros k z ?. exists z. split; [done|lia]. Qed.

Lemma Relaxed_trans this c gc st1 st2 st3 :
  Relaxed this c gc st1 st2 → Relaxed this c gc st2 st3 →
  Relaxed this c gc st1 st3.
Proof.
  intros H12 H23. split.
  - apply H23.
  - rewrite (rl_vis _ _ _ _ _ H23). apply H12.
  - etrans; [apply H23|apply H12].
  - apply H23.
  - intros k z Hz. destruct (rl_mono _ _ _ _ _ H12 _ _ Hz) as (z2 & Hz2 & ?).
    destruct (rl_mono _ _ _ _ _ H23 _ _ Hz2) as (z3 & Hz3 & ?).
    exists z3. split; [done|lia].
  - intros k z' Hz'. destruct (rl_new _ _ _ _ _ H23 _ _ Hz') as [Hz2|?]; [|by right].
    apply (rl_new _ _ _ _ _ H12 _ _ Hz2).
  - intros p Hp. apply H23, H12, Hp.
Qed.

Lemma relax_Relaxed this st c gc n :
  Inv this st →
  gScore st !! key c = Some (Int gc) →
  n ∈ getNeighbors this (row c) (col c) →
  Relaxed this c gc st (relax (endPos this) c st n) ∧
  ∃ z', gScore (relax (endPos this) c st n) !! key n = Some (Int z') ∧
        z' ≤ gc + 1.
Proof.
  intros HI Hc Hn.
  destruct (relax_cases (endPos this) c gc st n Hc) as [[-> Hle]|[-> Hold]].
  { intros v Hv. destruct (inv_g _ _ HI _ _ Hv) as (? & z & _ & -> & _). eauto. }
  - split; [by apply Relaxed_refl|]. done.
  - assert (key n ≠ key c) as Hnc.
    { intros ->%(inj key). apply getNeighbors_adjacent in Hn.
      unfold adjacent, heuristic in Hn. lia. }
    split; [split|].
    + by apply improved_Inv.
    + done.
    + apply Nat.lt_le_incl. by apply improved_potential.
    + simpl. by rewrite lookup_insert_ne.
    + intros k z Hz. simpl. rewrite lookup_insert. case_decide as Hk.
      * subst k. exists (gc + 1). split; [done|].
        destruct Hold as [?|(zo & ? & ?)]; simplify_eq. lia.
      * exists z. split; [done|lia].
    + intros k z'. simpl. rewrite lookup_insert. case_decide as Hk.
      * intros [= <-]. right. eauto.
      * by left.
    + intros p Hp. apply elem_of_improved_openSet. by left.
    + exists (gc + 1). simpl. rewrite lookup_insert_eq. split; [done|lia].
Qed.

Lemma foldl_relax_Relaxed this c gc l : ∀ st,
  Inv this st →
  gScore st !! key c = Some (Int gc) →
  (∀ n, n ∈ l → n ∈ getNeighbors this (row c) (col c)) →
  Relaxed this c gc st (foldl (relax (endPos this) c) st l) ∧
  ∀ n, n ∈ l →
    ∃ z', gScore (foldl (relax (endPos this) c) st l) !! key n = Some (Int z') ∧
          z' ≤ gc + 1.
Proof.
  induction l as [|n l IH]; intros st HI Hc Hl; simpl.
  - split; [by apply Relaxed_refl|]. intros n Hn. by apply elem_of_nil in Hn.
  - destruct (relax_Relaxed this st c gc n HI Hc) as [H1 (z1 & Hz1 & Hle1)].
    { apply Hl. by left. }
    destruct (IH (relax (endPos this) c st n)) as [H2 Hall].
    { apply H1. } { apply H1. } { intros m Hm. apply Hl. by right. }
    split; [by eapply Relaxed_trans|].
    intros m [->|Hm]%elem_of_cons; [|by apply Hall].
    destruct (rl_mono _ _ _ _ _ H2 _ _ Hz1) as (z2 & ? & ?).
    exists z2. split; [done|lia].
Qed.

(** ** Choosing and removing the current node *)

Lemma num_lt_fval fS p q :
  (∃ z, get fS (key p) = Int z) → (∃ z, get fS (key q) = Int z) →
  num_lt (get fS (key p)) (get fS (key q)) = bool_decide (fval fS p < fval fS q).
Proof. unfold fval. by intros [? ->] [? ->]. Qed.

Lemma lowest_lookup fS l : ∀ rest i cur idx c j,
  drop i l = rest → l !! idx = Some cur →
  lowest fS rest i cur idx = (c, j) → l !! j = Some c.
Proof.
  intros rest. induction rest as [|p rest IH]; intros i cur idx c j Hd Hi; simpl.
  - by intros [= <- <-].
  - assert (l !! i = Some p) as Hp.
    { rewrite <-(Nat.add_0_r i), <-lookup_drop, Hd. done. }
    assert (drop (S i) l = rest) as Hd'.
    { replace (S i) with (i + 1)%nat by lia. by rewrite <-drop_drop, Hd. }
    case_match; eauto.
Qed.

(** The scan returns the first member with the least fScore. *)
Lemma lowest_first_min fS l :
  (∀ p, p ∈ l → ∃ z, get fS (key p) = Int z) →
  ∀ rest i cur idx c j,
    drop i l = rest → l !! idx = Some cur → (idx < i)%nat →
    (∀ k p, (k < i)%nat → l !! k = Some p →
       fval fS cur ≤ fval fS p ∧ ((k < idx)%nat → fval fS cur < fval fS p)) →
    lowest fS rest i cur idx = (c, j) →
    ∀ k p, l !! k = Some p →
      fval fS c ≤ fval fS p ∧ ((k < j)%nat → fval fS c < fval fS p).
Proof.
  intros Hint rest.
  induction rest as [|p rest IH]; intros i cur idx c j Hd Hi Hidx Hbest; simpl.
  - intros [= <- <-] k q Hq. apply Hbest; [|done].
    apply lookup_lt_Some in Hq.
    assert (length (drop i l) = 0%nat) as Hlen by (by rewrite Hd).
    rewrite length_drop in Hlen. lia.
  - assert (l !! i = Some p) as Hp.
    { rewrite <-(Nat.add_0_r i), <-lookup_drop, Hd. done. }
    assert (drop (S i) l = rest) as Hd'.
    { replace (S i) with (i + 1)%nat by lia. by rewrite <-drop_drop, Hd. }
    rewrite num_lt_fval
      by (apply Hint; eapply list_elem_of_lookup_2; eassumption).
    case_bool_decide as Hlt.
    + apply (IH (S i) p i c j Hd' Hp); [lia|]. intros k q Hk Hq.
      destruct (decide (k = i)) as [->|Hne].
      * simplify_eq. split; lia.
      * destruct (Hbest k q) as [? _]; [lia|done|]. split; lia.
    + apply (IH (S i) cur idx c j Hd' Hi); [lia|]. intros k q Hk Hq.
      destruct (decide (k = i)) as [->|Hne].
      * simplify_eq. split; lia.
      * apply Hbest; [lia|done].
Qed.

Lemma elem_of_delete_ne {A} (l : list A) j c x :
  l !! j = Some c → x ∈ l → x ≠ c → x ∈ delete j l.
Proof.
  intros Hj Hx Hne. rewrite (delete_Permutation l j c Hj) in Hx.
  by apply elem_of_cons in Hx as [?|?].
Qed.

Lemma popped_Inv this st c j :
  Inv this st → openSet st !! j = Some c → c ≠ endPos this →
  Inv this (popped st c j).
Proof.
  intros HI Hj Hne. split; simpl; try apply HI.
  - intros k v Hv.
    destruct (inv_g _ _ HI _ _ Hv) as (n & z & -> & -> & ? & ? & ? & ? & Hin & ?).
    exists n, z. repeat split; try done.
    destruct (decide (n = c)) as [->|Hnc]; [left; set_solver|].
    destruct Hin as [?|?]; [left; set_solver|right].
    by eapply elem_of_delete_ne.
  - intros n Hn%list_elem_of_delete_inv. by apply HI.
  - intros k [->%elem_of_singleton|Hk]%elem_of_union.
    + exists c. repeat split; try done.
      eapply (inv_open _ _ HI), list_elem_of_lookup_2, Hj.
    + by apply HI.
Qed.

Lemma popped_potential this st c j :
  openSet st !! j = Some c →
  S (potential this (popped st c j)) = potential this st.
Proof.
  intros Hj. unfold potential. simpl.
  rewrite length_delete by eauto.
  apply lookup_lt_Some in Hj. lia.
Qed.

(** ** Reconstruction *)

Lemma walk_snoc this a l b c :
  walk this a l → last (a :: l) = Some b →
  c ∈ getNeighbors this (row b) (col b) → walk this a (l ++ [c]).
Proof.
  revert a. induction l as [|x l IH]; intros a Hw Hl Hc; simpl in *.
  - by simplify_eq.
  - destruct Hw as [Hx Hw]. split; [done|]. by apply IH.
Qed.

Lemma reconstruct_spec this st :
  Inv this st →
  ∀ fuel temp acc z,
    gScore st !! key temp = Some (Int z) → (Z.to_nat z ≤ fuel)%nat →
    ∃ l, reconstruct fuel (cameFrom st) temp acc = Some (l ++ acc) ∧
         walk this (startPos this) l ∧
         last (startPos this :: l) = Some temp ∧
         (length l ≤ Z.to_nat z)%nat ∧
         ∀ p, p ∈ l → is_Some (cameFrom st !! key p).
Proof.
  intros HI fuel. induction fuel as [|fuel IH]; intros temp acc z Hz Hfuel.
  - destruct (Inv_lookup _ _ temp HI (mk_is_Some _ _ Hz))
      as (z' & Hz' & ? & _ & _ & Hcf & _).
    assert (z' = z) as -> by congruence. simpl.
    destruct (cameFrom st !! key temp) as [prev|] eqn:Hprev.
    + destruct (inv_cf _ _ HI _ _ Hprev) as (n & vp & vn & _ & _ & Hvp & Hvn & ?).
      destruct (Inv_lookup _ _ prev HI (mk_is_Some _ _ Hvp)) as (? & ? & ? & _).
      simplify_eq. lia.
    + destruct Hcf as [->|[? ?]]; [|done].
      exists []. repeat split; try done; simpl; try lia.
      intros p Hp. by apply elem_of_nil in Hp.
  - destruct (Inv_lookup _ _ temp HI (mk_is_Some _ _ Hz))
      as (z' & Hz' & ? & _ & _ & Hcf & _).
    assert (z' = z) as -> by congruence. simpl.
    destruct (cameFrom st !! key temp) as [prev|] eqn:Hprev.
    + destruct (inv_cf _ _ HI _ _ Hprev) as (n & vp & vn & Hk & Hn & Hvp & Hvn & ?).
      apply (inj key) in Hk as <-.
      destruct (Inv_lookup _ _ prev HI (mk_is_Some _ _ Hvp)) as (? & ? & ? & _).
      simplify_eq.
      destruct (IH prev (temp :: acc) vp Hvp) as (l & Hl & Hw & Hlast & Hlen & Hcfs);
        [lia|].
      exists (l ++ [temp]). rewrite <-app_assoc. simpl.
      split; [done|]. split; [by eapply walk_snoc|].
      split; [|split].
      * change (startPos this :: l ++ [temp]) with ((startPos this :: l) ++ [temp]).
        by rewrite last_snoc.
      * rewrite length_app. simpl. lia.
      * intros p [Hp| ->%list_elem_of_singleton]%elem_of_app; [by apply Hcfs|].
        rewrite Hprev. eauto.
    + destruct Hcf as [->|[? ?]]; [|done].
      exists []. repeat split; try done; simpl; try lia.
      intros p Hp. by apply elem_of_nil in Hp.
Qed.

(** ** One iteration of the main loop *)

Lemma Pos_eq (a b : Pos) : row a = row b → col a = col b → a = b.
Proof. destruct a, b. simpl. by intros -> ->. Qed.

Lemma is_end_true this c :
  bool_decide (row c = row (endPos this)) &&
  bool_decide (col c = col (endPos this)) = true ↔ c = endPos this.
Proof.
  rewrite andb_true_iff, !bool_decide_eq_true. split.
  - intros [??]. by apply Pos_eq.
  - by intros ->.
Qed.

Lemma is_end_false this c :
  bool_decide (row c = row (endPos this)) &&
  bool_decide (col c = col (endPos this)) = false ↔ c ≠ endPos this.
Proof. rewrite <-is_end_true. by destruct (_ && _). Qed.

Lemma lowest_openSet st first rest c j :
  openSet st = first :: rest →
  lowest (fScore st) rest 1 first 0 = (c, j) → openSet st !! j = Some c.
Proof.
  intros Ho Hl. rewrite Ho.
  by apply (lowest_lookup (fScore st) (first :: rest) rest 1 first 0 c j).
Qed.

Lemma step_Relaxed this st first rest c j :
  Inv this st →
  openSet st = first :: rest →
  lowest (fScore st) rest 1 first 0 = (c, j) →
  c ≠ endPos this →
  ∃ gc, gScore st !! key c = Some (Int gc) ∧
    Relaxed this c gc (popped st c j)
      (foldl (relax (endPos this) c) (popped st c j)
         (getNeighbors this (row c) (col c))) ∧
    ∀ n, n ∈ getNeighbors this (row c) (col c) →
      ∃ z', gScore (foldl (relax (endPos this) c) (popped st c j)
                      (getNeighbors this (row c) (col c))) !! key n
            = Some (Int z') ∧ z' ≤ gc + 1.
Proof.
  intros HI Ho Hl Hne.
  pose proof (lowest_openSet _ _ _ _ _ Ho Hl) as Hj.
  destruct (Inv_lookup this st c HI) as (gc & Hgc & _).
  { eapply (inv_open _ _ HI), list_elem_of_lookup_2, Hj. }
  exists gc. split; [done|].
  apply foldl_relax_Relaxed; [by apply popped_Inv|done|done].
Qed.

Lemma step_Inv this st first rest c j :
  Inv this st →
  openSet st = first :: rest →
  lowest (fScore st) rest 1 first 0 = (c, j) →
  c ≠ endPos this →
  Inv this (foldl (relax (endPos this) c) (popped st c j)
              (getNeighbors this (row c) (col c))).
Proof.
  intros HI Ho Hl Hne.
  destruct (step_Relaxed _ _ _ _ _ _ HI Ho Hl Hne) as (gc & _ & HR & _).
  apply HR.
Qed.

Lemma step_Closed this st first rest c j :
  Inv this st → Closed this st →
  openSet st = first :: rest →
  lowest (fScore st) rest 1 first 0 = (c, j) →
  c ≠ endPos this →
  Closed this (foldl (relax (endPos this) c) (popped st c j)
                 (getNeighbors this (row c) (col c))).
Proof.
  intros HI HC Ho Hl Hne.
  destruct (step_Relaxed _ _ _ _ _ _ HI Ho Hl Hne) as (gc & _ & HR & Hall).
  intros n n'. rewrite (rl_vis _ _ _ _ _ HR). simpl.
  intros [->%elem_of_singleton%(inj key)|Hn]%elem_of_union Hn'.
  - destruct (Hall n' Hn') as (z' & -> & _). eauto.
  - destruct (Inv_lookup this st n' HI (HC n n' Hn Hn')) as (z & Hz & _).
    destruct (rl_mono _ _ _ _ _ HR (key n') z Hz) as (z' & -> & _). eauto.
Qed.

Lemma step_potential this st first rest c j :
  Inv this st →
  openSet st = first :: rest →
  lowest (fScore st) rest 1 first 0 = (c, j) →
  c ≠ endPos this →
  (potential this (foldl (relax (endPos this) c) (popped st c j)
                     (getNeighbors this (row c) (col c)))
   < potential this st)%nat.
Proof.
  intros HI Ho Hl Hne.
  destruct (step_Relaxed _ _ _ _ _ _ HI Ho Hl Hne) as (gc & _ & HR & _).
  pose proof (rl_pot _ _ _ _ _ HR).
  pose proof (popped_potential this st c j (lowest_openSet _ _ _ _ _ Ho Hl)).
  lia.
Qed.

(** ** Reasoning about the whole loop *)

Section loop_rule.
Context (this : PathfindingGrid) (rfuel : nat).
Context (P : SearchState → Prop) (Q : SearchResult → Prop).

Hypothesis on_exit : ∀ st,
  P st → openSet st = [] → Q (mkResult [] (visited st) false).
Hypothesis on_found : ∀ st first rest j p,
  P st → openSet st = first :: rest →
  lowest (fScore st) rest 1 first 0 = (endPos this, j) →
  reconstruct rfuel (cameFrom st) (endPos this) [] = Some p →
  Q (mkResult p (visited st) true).
Hypothesis on_step : ∀ st first rest c j,
  P st → openSet st = first :: rest →
  lowest (fScore st) rest 1 first 0 = (c, j) →
  c ≠ endPos this →
  P (foldl (relax (endPos this) c) (popped st c j)
       (getNeighbors this (row c) (col c))).

Lemma search_loop_rule fuel : ∀ st r,
  P st → search_loop rfuel fuel this st = Some r → Q r.
Proof using on_exit on_found on_step.
  induction fuel as [|fuel IH]; intros st r HP; simpl; [done|].
  destruct (openSet st) as [|first rest] eqn:Ho.
  - intros [= <-]. by apply on_exit.
  - destruct (lowest (fScore st) rest 1 first 0) as [c j] eqn:Hl.
    destruct (_ && _) eqn:Hend.
    + apply is_end_true in Hend as ->.
      destruct (reconstruct rfuel (cameFrom st) (endPos this) []) as [p|] eqn:Hp;
        simpl; [|done].
      intros [= <-]. by eapply on_found.
    + apply is_end_false in Hend. intros Hr.
      eapply IH; [|exact Hr].
      rewrite <-Ho. eapply on_step; eauto.
Qed.
End loop_rule.

(** ** Termination *)

Lemma search_loop_total this rfuel :
  (length (universe this) ≤ rfuel)%nat →
  ∀ fuel st, Inv this st → (potential this st < fuel)%nat →
    is_Some (search_loop rfuel fuel this st).
Proof.
  intros Hrf fuel. induction fuel as [|fuel IH]; intros st HI Hpot; [lia|].
  simpl. destruct (openSet st) as [|first rest] eqn:Ho; [eauto|].
  destruct (lowest (fScore st) rest 1 first 0) as [c j] eqn:Hl.
  destruct (_ && _) eqn:Hend.
  - pose proof (lowest_openSet _ _ _ _ _ Ho Hl) as Hj.
    destruct (Inv_lookup this st c HI) as (gc & Hgc & _ & Hsz & _).
    { eapply (inv_open _ _ HI), list_elem_of_lookup_2, Hj. }
    pose proof (Inv_size _ _ HI).
    destruct (reconstruct_spec this st HI rfuel c [] gc Hgc) as (l & -> & _);
      [lia|].
    simpl. eauto.
  - apply is_end_false in Hend. rewrite <-Ho. apply IH.
    + by eapply step_Inv.
    + eapply Nat.lt_le_trans; [by eapply step_potential|lia].
Qed.

Lemma potential_init this :
  (potential this (init_state this) < enough_fuel this)%nat.
Proof.
  unfold potential, enough_fuel.
  remember (length (universe this)) as N eqn:HN.
  change (length (openSet (init_state this))) with 1%nat.
  assert (sum_list_with
            (fun k => weight N (gScore (init_state this) !! k)) (universe this)
          ≤ sum_list_with (fun _ => N) (universe this))%nat as Hle.
  { apply sum_list_with_le. intros k. simpl.
    destruct (decide (k = key (startPos this))) as [->|Hk].
    - rewrite lookup_singleton_eq. simpl. lia.
    - rewrite lookup_singleton_ne by done. done. }
  assert (sum_list_with (fun _ : string => N) (universe this) = (N * N)%nat) as E.
  { rewrite HN at 2. clear. induction (universe this); simpl; lia. }
  lia.
Qed.

Lemma search_total this fuel :
  (enough_fuel this ≤ fuel)%nat → is_Some (search fuel this).
Proof.
  intros Hf. unfold search. apply search_loop_total.
  - unfold enough_fuel in Hf. nia.
  - apply Inv_init.
  - pose proof (potential_init this). lia.
Qed.

(** ** More fuel changes nothing *)

Lemma reconstruct_mono cF fuel : ∀ fuel' temp acc p,
  reconstruct fuel cF temp acc = Some p → (fuel ≤ fuel')%nat →
  reconstruct fuel' cF temp acc = Some p.
Proof.
  induction fuel as [|fuel IH]; intros fuel' temp acc p; simpl.
  - destruct (cF !! key temp) eqn:E; [done|]. intros [= <-] _.
    destruct fuel'; simpl; by rewrite E.
  - destruct (cF !! key temp) eqn:E.
    + intros Hp Hle. destruct fuel' as [|fuel']; [lia|]. simpl. rewrite E.
      apply IH; [done|lia].
    + intros [= <-] _. destruct fuel'; simpl; by rewrite E.
Qed.

Lemma search_loop_mono this rfuel fuel : ∀ rfuel' fuel' st r,
  search_loop rfuel fuel this st = Some r →
  (rfuel ≤ rfuel')%nat → (fuel ≤ fuel')%nat →
  search_loop rfuel' fuel' this st = Some r.
Proof.
  induction fuel as [|fuel IH]; intros rfuel' fuel' st r; simpl; [done|].
  intros Hr Hrf Hf. destruct fuel' as [|fuel']; [lia|]. simpl.
  destruct (openSet st) as [|first rest]; [done|].
  destruct (lowest (fScore st) rest 1 first 0) as [c j].
  destruct (_ && _).
  - destruct (reconstruct rfuel (cameFrom st) c []) as [p|] eqn:Hp; [|done].
    by rewrite (reconstruct_mono _ _ rfuel' _ _ _ Hp Hrf).
  - apply IH; [done|done|lia].
Qed.

Lemma search_fuel_irrelevant this fuel fuel' r r' :
  search fuel this = Some r → search fuel' this = Some r' → r = r'.
Proof.
  unfold search. intros H H'.
  apply (search_loop_mono _ _ _ (fuel `max` fuel')%nat (fuel `max` fuel')%nat)
    in H; [|lia..].
  apply (search_loop_mono _ _ _ (fuel `max` fuel')%nat (fuel `max` fuel')%nat)
    in H'; [|lia..].
  congruence.
Qed.

Lemma found_path this st rfuel c z p :
  Inv this st →
  gScore st !! key c = Some (Int z) →
  reconstruct rfuel (cameFrom st) c [] = Some p →
  walk this (startPos this) p ∧
  last (startPos this :: p) = Some c ∧
  (length p ≤ Z.to_nat z)%nat ∧
  ∀ q, q ∈ p → is_Some (cameFrom st !! key q).
Proof.
  intros HI Hz Hp.
  destruct (reconstruct_spec this st HI (rfuel `max` Z.to_nat z)%nat c [] z Hz)
    as (l & Hl & Hrest); [lia|].
  rewrite (reconstruct_mono _ _ (rfuel `max` Z.to_nat z)%nat _ _ _ Hp) in Hl
    by lia.
  rewrite app_nil_r in Hl. by injection Hl as ->.
Qed.

(** ** What a finished search guarantees *)

Lemma Inv_visited_reach this st k :
  Inv this st → k ∈ visited st →
  ∃ n, k = key n ∧ n ≠ endPos this ∧ reach this (startPos this) n.
Proof.
  intros HI Hk. destruct (inv_vis _ _ HI _ Hk) as (n & -> & Hne & Hg).
  destruct (Inv_lookup _ _ n HI Hg) as (_ & _ & _ & _ & Hr & _). eauto.
Qed.

Lemma search_loop_Post this rfuel fuel st r :
  Inv this st → Closed this st →
  search_loop rfuel fuel this st = Some r → Post this r.
Proof.
  intros HI HC.
  apply (search_loop_rule this rfuel
           (fun st => Inv this st ∧ Closed this st) (Post this)); [..|done].
  - clear. intros st [HI HC] Ho. split; simpl; [done| |].
    + intros _. split; [done|]. intros n Hn. induction Hn as [|b c Hb IH Hc].
      * destruct (Inv_lookup _ _ (startPos this) HI) as (_ & _ & _ & _ & _ & _ & [?|Hin] & _);
          [rewrite (inv_start _ _ HI); eauto|done|].
        rewrite Ho in Hin. by apply elem_of_nil in Hin.
      * destruct (Inv_lookup _ _ c HI (HC b c IH Hc)) as (_ & _ & _ & _ & _ & _ & [?|Hin] & _);
          [done|].
        rewrite Ho in Hin. by apply elem_of_nil in Hin.
    + intros k Hk. by eapply Inv_visited_reach.
  - clear. intros st first rest j p [HI HC] Ho Hl Hp. split; simpl; [|done|].
    + intros _.
      pose proof (lowest_openSet _ _ _ _ _ Ho Hl) as Hj.
      destruct (Inv_lookup this st (endPos this) HI) as (z & Hz & _).
      { eapply (inv_open _ _ HI), list_elem_of_lookup_2, Hj. }
      destruct (found_path _ _ _ _ _ _ HI Hz Hp) as (Hw & Hlast & _ & Hcf).
      repeat split; try done.
      intros q Hq ->. apply Hcf in Hq. rewrite (inv_start_cf _ _ HI) in Hq.
      by destruct Hq.
    + intros k Hk. by eapply Inv_visited_reach.
  - clear. intros st first rest c j [HI HC] Ho Hl Hne. split.
    + by eapply step_Inv.
    + by eapply step_Closed.
Qed.

Lemma search_Post this fuel r : search fuel this = Some r → Post this r.
Proof.
  apply search_loop_Post; [apply Inv_init|apply Closed_init].
Qed.

Lemma walk_reach this a l b :
  walk this a l → last (a :: l) = Some b → reach this a b.
Proof.
  revert b. induction l as [|x l IH] using rev_ind; intros b Hw Hl.
  - simpl in Hl. simplify_eq. constructor.
  - change (a :: l ++ [x]) with ((a :: l) ++ [x]) in Hl.
    rewrite last_snoc in Hl. simplify_eq.
    assert (∃ y, last (a :: l) = Some y) as [y Hy].
    { destruct (last (a :: l)) eqn:E; [eauto|].
      by apply last_None in E. }
    assert (walk this a l ∧ b ∈ getNeighbors this (row y) (col y)) as [Hw' Hb].
    { clear IH. revert a Hw y Hy. induction l as [|z l IHl]; intros a Hw y Hy.
      - simpl in *. simplify_eq. tauto.
      - simpl in Hw. destruct Hw as [Hz Hw].
        destruct (IHl z Hw y) as [? ?]; [by destruct l|]. simpl. tauto. }
    eapply reach_step; [|exact Hb]. by apply IH.
Qed.

Lemma walk_elem this a l p :
  walk this a l → p ∈ l → in_bounds this p ∧ key p ∉ walls this.
Proof.
  revert a. induction l as [|x l IH]; intros a Hw Hp; [by apply elem_of_nil in Hp|].
  destruct Hw as [Hx Hw]. apply elem_of_cons in Hp as [->|Hp]; [|by eapply IH].
  eauto using getNeighbors_in_bounds, getNeighbors_not_wall.
Qed.

(** ** The search reads the model only *)

Lemma getNeighbors_same_model this this' r c :
  same_model this this' → getNeighbors this r c = getNeighbors this' r c.
Proof.
  intros (Hr & Hc & _ & _ & Hw). unfold getNeighbors, isWall.
  by rewrite Hr, Hc, Hw.
Qed.

Lemma search_loop_same_model this this' rfuel fuel :
  same_model this this' →
  ∀ st, search_loop rfuel fuel this st = search_loop rfuel fuel this' st.
Proof.
  intros Hm. pose proof Hm as (_ & _ & _ & He & _).
  induction fuel as [|fuel IH]; intros st; simpl; [done|].
  destruct (openSet st) as [|first rest]; [done|].
  destruct (lowest (fScore st) rest 1 first 0) as [c j].
  rewrite He. destruct (_ && _); [done|].
  by rewrite (getNeighbors_same_model this this' _ _ Hm), IH.
Qed.

Lemma search_same_model this this' fuel :
  same_model this this' → search fuel this = search fuel this'.
Proof.
  intros Hm. pose proof Hm as (_ & _ & Hs & He & _).
  unfold search, init_state. rewrite Hs, He.
  by apply search_loop_same_model.
Qed.

Lemma renderGrid_same_model this p vis : same_model this (renderGrid this p vis).
Proof. by repeat split. Qed.

Lemma renderGrid_twice this p vis p' vis' :
  renderGrid (renderGrid this p' vis') p vis = renderGrid this p vis.
Proof. reflexivity. Qed.

Lemma findPath_Some fuel this this' ret :
  findPath fuel this = Some (this', ret) →
  ∃ r, search fuel this = Some r ∧
       this' = renderGrid this (path r) (visitedCells r) ∧
       ret = (if found r then Some (path r) else None).
Proof.
  unfold findPath. destruct (search fuel this) as [r|]; simpl; [|done].
  intros [= <- <-]. eauto.
Qed.

(** ** Toggling a wall *)

Lemma toggle_twice (W : gset string) (k : string) :
  let W1 := if bool_decide (k ∈ W) then W ∖ {[k]} else {[k]} ∪ W in
  (if bool_decide (k ∈ W1) then W1 ∖ {[k]} else {[k]} ∪ W1) = W.
Proof.
  simpl. destruct (decide (k ∈ W)) as [Hk|Hk].
  - rewrite (bool_decide_eq_true_2 (k ∈ W)) by done.
    rewrite bool_decide_eq_false_2
      by (rewrite elem_of_difference, elem_of_singleton; tauto).
    apply set_eq. intros x.
    rewrite elem_of_union, elem_of_difference, elem_of_singleton.
    destruct (decide (x = k)) as [->|]; tauto.
  - rewrite (bool_decide_eq_false_2 (k ∈ W)) by done.
    rewrite bool_decide_eq_true_2
      by (rewrite elem_of_union, elem_of_singleton; tauto).
    apply set_eq. intros x.
    rewrite elem_of_difference, elem_of_union, elem_of_singleton.
    destruct (decide (x = k)) as [->|]; tauto.
Qed.

Lemma toggleWall_endpoint fuel this r c :
  isStart this r c || isEnd this r c = true →
  toggleWall fuel this r c = Some this.
Proof. unfold toggleWall. by intros ->. Qed.

Lemma toggleWall_Some fuel this r c this1 :
  isStart this r c || isEnd this r c = false →
  toggleWall fuel this r c = Some this1 →
  rows this1 = rows this ∧ cols this1 = cols this ∧
  startPos this1 = startPos this ∧ endPos this1 = endPos this ∧
  walls this1 =
    (if bool_decide (key (mkPos r c) ∈ walls this)
     then walls this ∖ {[key (mkPos r c)]}
     else {[key (mkPos r c)]} ∪ walls this).
Proof.
  unfold toggleWall. intros ->.
  destruct (findPath fuel _) as [[this' ret]|] eqn:Hf; simpl; [|done].
  intros [= <-]. apply findPath_Some in Hf as (res & _ & -> & _).
  by destruct (bool_decide _).
Qed.

(** ** Shortest paths on a grid without walls *)

Lemma heuristic_triangle a b c :
  heuristic a c ≤ heuristic a b + heuristic b c.
Proof. unfold heuristic. lia. Qed.

Lemma heuristic_refl a : heuristic a a = 0.
Proof. unfold heuristic. lia. Qed.

Lemma walk_length this a l b :
  walk this a l → last (a :: l) = Some b →
  heuristic a b ≤ Z.of_nat (length l).
Proof.
  revert a. induction l as [|x l IH]; intros a Hw Hl.
  - simpl in Hl. simplify_eq. rewrite heuristic_refl. simpl. lia.
  - destruct Hw as [Hx Hw]. apply getNeighbors_adjacent in Hx.
    assert (last (x :: l) = Some b) as Hl' by (by destruct l).
    specialize (IH x Hw Hl'). pose proof (heuristic_triangle a x b).
    unfold adjacent in Hx. simpl length. lia.
Qed.

(** On a grid without walls, a cell other than [e] has a neighbour one
    step closer to [e]. *)
Lemma closer_neighbor this n e :
  walls this = ∅ → in_bounds this n → in_bounds this e → n ≠ e →
  ∃ n', n' ∈ getNeighbors this (row n) (col n) ∧
        heuristic n' e = heuristic n e - 1.
Proof.
  intros Hw [Hnr Hnc] [Her Hec] Hne.
  assert (∀ r c, isWall this r c = false) as Hfree.
  { intros r c. unfold isWall. rewrite Hw. by apply bool_decide_eq_false. }
  assert (row n < row e ∨ row e < row n ∨
          (row n = row e ∧ col n < col e) ∨ (row n = row e ∧ col e < col n))
    as Hcase.
  { destruct (decide (row n = row e)); [|lia].
    destruct (decide (col n = col e)); [|lia].
    destruct Hne. by apply Pos_eq. }
  destruct Hcase as [?|[?|[[??]|[??]]]].
  - exists (mkPos (row n + 1) (col n)).
    rewrite elem_of_getNeighbors. unfold in_bounds, heuristic. simpl.
    rewrite Hfree. repeat split; lia.
  - exists (mkPos (row n - 1) (col n)).
    rewrite elem_of_getNeighbors. unfold in_bounds, heuristic. simpl.
    rewrite Hfree. repeat split; lia.
  - exists (mkPos (row n) (col n + 1)).
    rewrite elem_of_getNeighbors. unfold in_bounds, heuristic. simpl.
    rewrite Hfree. repeat split; lia.
  - exists (mkPos (row n) (col n - 1)).
    rewrite elem_of_getNeighbors. unfold in_bounds, heuristic. simpl.
    rewrite Hfree. repeat split; lia.
Qed.

Lemma Opt_init this : Opt this (init_state this).
Proof.
  split; simpl.
  - intros n z [Hk [= <-]]%lookup_singleton_Some.
    apply (inj key) in Hk as <-. by rewrite heuristic_refl.
  - intros n Hn. by apply not_elem_of_empty in Hn.
Qed.

Section open_grid.
Context (this : PathfindingGrid).
Hypothesis no_walls : walls this = ∅.
Hypothesis start_in : in_bounds this (startPos this).
Hypothesis end_in : in_bounds this (endPos this).

Lemma reach_in this_n :
  reach this (startPos this) this_n → in_bounds this this_n.
Proof using start_in. by intros [->|[? _]]%reach_in_bounds. Qed.

(** From any cell on track, some cell on track is still in the open
    set. *)
Lemma on_track_open st (m : nat) : ∀ n,
  Inv this st → Opt this st →
  on_track this st n → heuristic n (endPos this) ≤ Z.of_nat m →
  ∃ n', n' ∈ openSet st ∧ on_track this st n'.
Proof using no_walls start_in end_in.
  induction m as [|m IH]; intros n HI HO [Hg Hsum] Hm.
  - assert (n = endPos this) as ->.
    { apply Pos_eq; unfold heuristic in Hm; lia. }
    destruct (Inv_lookup _ _ (endPos this) HI (mk_is_Some _ _ Hg))
      as (_ & _ & _ & _ & _ & _ & [Hv|Ho] & _).
    + destruct (inv_vis _ _ HI _ Hv) as (n' & Hk & Hne & _).
      apply (inj key) in Hk as <-. done.
    + exists (endPos this). by repeat split.
  - destruct (Inv_lookup _ _ n HI (mk_is_Some _ _ Hg))
      as (_ & _ & _ & _ & Hr & _ & [Hv|Ho] & _); [|exists n; by repeat split].
    destruct (inv_vis _ _ HI _ Hv) as (n0 & Hk & Hne & _).
    apply (inj key) in Hk as <-.
    destruct (closer_neighbor this n (endPos this) no_walls (reach_in _ Hr)
                end_in Hne) as (n' & Hn' & Hh).
    destruct (opt_vis _ _ HO n Hv) as [_ Hnb].
    destruct (Hnb n' Hn') as (z' & Hz' & Hle).
    pose proof (opt_lower _ _ HO n' z' Hz').
    pose proof (heuristic_triangle (startPos this) n' (endPos this)).
    apply (IH n' HI HO); [|lia].
    split; [|lia]. rewrite Hz'. do 2 f_equal. lia.
Qed.

Lemma Opt_open st :
  Inv this st → Opt this st → ∃ n, n ∈ openSet st ∧ on_track this st n.
Proof using no_walls start_in end_in.
  intros HI HO.
  apply (on_track_open st
           (Z.to_nat (heuristic (startPos this) (endPos this)))
           (startPos this) HI HO).
  - split; rewrite heuristic_refl; [apply HI|lia].
  - unfold heuristic. lia.
Qed.

(** The node the scan picks is on track. *)
Lemma lowest_on_track st first rest c j :
  Inv this st → Opt this st →
  openSet st = first :: rest →
  lowest (fScore st) rest 1 first 0 = (c, j) →
  on_track this st c.
Proof using no_walls start_in end_in.
  intros HI HO Ho Hl.
  pose proof (lowest_openSet _ _ _ _ _ Ho Hl) as Hj.
  assert (∀ p, p ∈ openSet st →
            ∃ z, gScore st !! key p = Some (Int z) ∧
                 fval (fScore st) p = z + heuristic p (endPos this)) as Hf.
  { intros p Hp. destruct (Inv_lookup this st p HI) as (z & Hz & _ & _ & _ & _ & _ & Hfs).
    { by apply HI. }
    exists z. split; [done|]. unfold fval, get. by rewrite Hfs. }
  destruct (Opt_open st HI HO) as (m & Hm & Hgm & Hsum).
  destruct (list_elem_of_lookup_1 _ _ Hm) as [k Hk].
  assert (fval (fScore st) c ≤ fval (fScore st) m) as Hle.
  { rewrite Ho in Hk.
    refine (proj1 (lowest_first_min (fScore st) (first :: rest) _
                     rest 1 first 0 c j eq_refl eq_refl _ _ Hl k m Hk)).
    - intros p Hp. rewrite <-Ho in Hp.
      destruct (Inv_lookup this st p HI) as (z & _ & _ & _ & _ & _ & _ & Hfs).
      { by apply HI. }
      unfold get. rewrite Hfs. eauto.
    - lia.
    - intros k' p Hk' Hp. assert (k' = 0)%nat as -> by lia.
      simpl in Hp. simplify_eq. split; lia. }
  destruct (Hf c) as (gc & Hgc & Hfc).
  { eapply list_elem_of_lookup_2, Hj. }
  destruct (Hf m Hm) as (gm & Hgm' & Hfm).
  assert (gm = heuristic (startPos this) m) as -> by congruence.
  pose proof (opt_lower _ _ HO c gc Hgc).
  pose proof (heuristic_triangle (startPos this) c (endPos this)).
  split; [|lia]. rewrite Hgc. do 2 f_equal. lia.
Qed.

Lemma step_Opt st first rest c j :
  Inv this st → Opt this st →
  openSet st = first :: rest →
  lowest (fScore st) rest 1 first 0 = (c, j) →
  c ≠ endPos this →
  Opt this (foldl (relax (endPos this) c) (popped st c j)
              (getNeighbors this (row c) (col c))).
Proof using no_walls start_in end_in.
  intros HI HO Ho Hl Hne.
  destruct (lowest_on_track _ _ _ _ _ HI HO Ho Hl) as [Hgc Hsum].
  destruct (step_Relaxed _ _ _ _ _ _ HI Ho Hl Hne) as (gc & Hgc' & HR & Hall).
  assert (gc = heuristic (startPos this) c) as -> by congruence.
  assert (∀ n z,
    gScore (foldl (relax (endPos this) c) (popped st c j)
              (getNeighbors this (row c) (col c))) !! key n = Some (Int z) →
    heuristic (startPos this) n ≤ z) as Hlower.
  { intros n z Hz.
    destruct (rl_new _ _ _ _ _ HR _ _ Hz) as [Hold|(n0 & Hk & Hn0 & ->)].
    - by apply (opt_lower _ _ HO).
    - apply (inj key) in Hk as <-. apply getNeighbors_adjacent in Hn0.
      pose proof (heuristic_triangle (startPos this) c n).
      unfold adjacent in Hn0. lia. }
  split; [done|].
  intros n. rewrite (rl_vis _ _ _ _ _ HR). simpl.
  intros [->%elem_of_singleton%(inj key)|Hn]%elem_of_union.
  - split; [|done]. split; [|done]. apply HR.
  - destruct (opt_vis _ _ HO n Hn) as [[Hg Hs] Hnb]. split; [split; [|done]|].
    + destruct (rl_mono _ _ _ _ _ HR _ _ Hg) as (z' & Hz' & Hle).
      pose proof (Hlower n z' Hz'). rewrite Hz'. do 2 f_equal. lia.
    + intros n' Hn'. destruct (Hnb n' Hn') as (z1 & Hz1 & Hle1).
      destruct (rl_mono _ _ _ _ _ HR _ _ Hz1) as (z2 & Hz2 & Hle2).
      exists z2. split; [done|lia].
Qed.
End open_grid.

Lemma search_loop_open_grid this rfuel fuel st r :
  walls this = ∅ →
  in_bounds this (startPos this) → in_bounds this (endPos this) →
  Inv this st → Opt this st →
  search_loop rfuel fuel this st = Some r →
  found r = true ∧
  Z.of_nat (length (path r)) = heuristic (startPos this) (endPos this) ∧
  walk this (startPos this) (path r) ∧
  last (startPos this :: path r) = Some (endPos this).
Proof.
  intros Hw Hs He HI HO.
  apply (search_loop_rule this rfuel
           (fun st => Inv this st ∧ Opt this st)
           (fun r => found r = true ∧
              Z.of_nat (length (path r))
                = heuristic (startPos this) (endPos this) ∧
              walk this (startPos this) (path r) ∧
              last (startPos this :: path r) = Some (endPos this)));
    [..|done].
  - intros st' [HI' HO'] Hempty.
    destruct (Opt_open this Hw Hs He st' HI' HO') as (n & Hn & _).
    rewrite Hempty in Hn. by apply elem_of_nil in Hn.
  - intros st' first rest j p [HI' HO'] Ho Hl Hp. simpl.
    destruct (lowest_on_track this Hw Hs He _ _ _ _ _ HI' HO' Ho Hl) as [Hg Hsum].
    destruct (found_path _ _ _ _ _ _ HI' Hg Hp) as (Hwalk & Hlast & Hlen & _).
    pose proof (walk_length _ _ _ _ Hwalk Hlast).
    assert (0 ≤ heuristic (startPos this) (endPos this))
      by (unfold heuristic; lia).
    split; [done|]. split; [lia|done].
  - intros st' first rest c j [HI' HO'] Ho Hl Hne. split.
    + by eapply step_Inv.
    + by eapply step_Opt.
Qed.

(** * The claims *)

Lemma walk_consecutive_adjacent this a l :
  walk this a l → consecutive_adjacent (a :: l).
Proof.
  revert a. induction l as [|b l IH]; intros a Hw; [done|].
  destruct Hw as [Hb Hw]. split; [by eapply getNeighbors_adjacent|by apply IH].
Qed.

Lemma consecutive_adjacent_tail a l :
  consecutive_adjacent (a :: l) → consecutive_adjacent l.
Proof. destruct l; [done|]. by intros [_ ?]. Qed.

(** C1, as stated, fails: on the 1 x 2 grid the search finds the path
    [(0,1)], whose first element is not the start cell (0,0). *)
Lemma C1_counterexample :
  ¬ (∀ this fuel r, search fuel this = Some r →
       (found r = true →
          head (path r) = Some (startPos this) ∧
          last (path r) = Some (endPos this)) ∧
       (found r = false → path r = [])).
Proof.
  intros H.
  destruct (H pair_grid 5%nat
              (mkResult [mkPos 0 1] {[key (mkPos 0 0)]} true)) as [Hf _].
  { vm_compute. reflexivity. }
  destruct (Hf eq_refl) as [Hhead _]. discriminate Hhead.
Qed.

(** C1, amended: when the search reports [found], the returned path lists
    the cells walked after start: start is not in it, its first cell, if
    any, is 4-adjacent to start, and the walk from start along it ends at
    end; when it reports not found, the path is empty. *)
Theorem C1_path_ends this fuel r :
  search fuel this = Some r →
  (found r = true →
     (startPos this ∉ path r) ∧
     (∀ a, head (path r) = Some a → adjacent (startPos this) a) ∧
     last (startPos this :: path r) = Some (endPos this)) ∧
  (found r = false → path r = []).
Proof.
  intros Hr. pose proof (search_Post _ _ _ Hr) as HP. split.
  - intros Hf. destruct (post_found _ _ HP Hf) as (Hw & Hl & Hns).
    split; [|split; [|done]].
    + intros Hin. by apply (Hns _ Hin).
    + intros a Ha. destruct (path r) as [|b l]; [done|].
      simpl in Ha. simplify_eq. destruct Hw as [Hb _].
      by eapply getNeighbors_adjacent.
  - intros Hf. by destruct (post_none _ _ HP Hf).
Qed.

Lemma C1_path_ends_witness :
  ∃ r, search 20 corridor = Some r ∧
    (found r = true →
       (startPos corridor ∉ path r) ∧
       (∀ a, head (path r) = Some a → adjacent (startPos corridor) a) ∧
       last (startPos corridor :: path r) = Some (endPos corridor)) ∧
    (found r = false → path r = []).
Proof.
  eexists. split; [vm_compute; reflexivity|].
  apply (C1_path_ends corridor 20). vm_compute. reflexivity.
Defined.

(** C2: on a grid without obstacles, with start and end inside the grid,
    the search finds a path, and the number of moves of that path equals
    the Manhattan distance between start and end.  The returned list holds
    one cell per move, from the cell after start up to end, so its length
    is the number of edges walked. *)
Theorem C2_open_grid_manhattan this fuel :
  walls this = ∅ →
  in_bounds this (startPos this) → in_bounds this (endPos this) →
  (enough_fuel this ≤ fuel)%nat →
  ∃ r, search fuel this = Some r ∧ found r = true ∧
    Z.of_nat (length (path r)) = heuristic (startPos this) (endPos this) ∧
    walk this (startPos this) (path r) ∧
    last (startPos this :: path r) = Some (endPos this).
Proof.
  intros Hw Hs He Hfuel. destruct (search_total this fuel Hfuel) as [r Hr].
  exists r. split; [done|].
  by apply (search_loop_open_grid this fuel fuel (init_state this) r Hw Hs He
              (Inv_init this) (Opt_init this)).
Qed.

Lemma C2_open_grid_manhattan_witness :
  ∃ r, search 250 corridor = Some r ∧ found r = true ∧
    Z.of_nat (length (path r)) = 4 ∧
    walk corridor (startPos corridor) (path r) ∧
    last (startPos corridor :: path r) = Some (endPos corridor).
Proof.
  apply (C2_open_grid_manhattan corridor 250).
  - reflexivity.
  - unfold in_bounds. simpl. lia.
  - unfold in_bounds. simpl. lia.
  - vm_compute. lia.
Defined.

(** C3: in every path the search returns, consecutive cells are 4-adjacent
    and no cell is an obstacle. *)
Theorem C3_path_adjacent_free this fuel r :
  search fuel this = Some r →
  consecutive_adjacent (path r) ∧
  ∀ p, p ∈ path r → isWall this (row p) (col p) = false.
Proof.
  intros Hr. pose proof (search_Post _ _ _ Hr) as HP.
  destruct (found r) eqn:Hf.
  - destruct (post_found _ _ HP Hf) as (Hw & _ & _). split.
    + eapply consecutive_adjacent_tail, walk_consecutive_adjacent, Hw.
    + intros p Hp. destruct (walk_elem _ _ _ _ Hw Hp) as [_ Hnw].
      unfold isWall. apply bool_decide_eq_false. by destruct p.
  - destruct (post_none _ _ HP Hf) as [-> _]. split; [done|].
    intros p Hp. by apply elem_of_nil in Hp.
Qed.

Lemma C3_path_adjacent_free_witness :
  ∃ r, search 20 corridor = Some r ∧
    consecutive_adjacent (path r) ∧
    ∀ p, p ∈ path r → isWall corridor (row p) (col p) = false.
Proof.
  eexists. split; [vm_compute; reflexivity|].
  apply (C3_path_adjacent_free corridor 20). vm_compute. reflexivity.
Defined.

Lemma getNeighbors_free this a n :
  n ∈ getNeighbors this (row a) (col a) ↔ adjacent a n ∧ free_cell this n.
Proof.
  rewrite elem_of_getNeighbors. unfold adjacent, heuristic, free_cell.
  split.
  - intros (? & ? & ?). split; [lia|done].
  - intros (? & ? & ?). split; [done|]. split; [done|lia].
Qed.

Lemma walk_free this l : ∀ a,
  walk this a l ↔ consecutive_adjacent (a :: l) ∧ Forall (free_cell this) l.
Proof.
  induction l as [|b l IH]; intros a.
  - simpl. split; [by intros _; split; [|constructor]|done].
  - change (walk this a (b :: l))
      with (b ∈ getNeighbors this (row a) (col a) ∧ walk this b l).
    change (consecutive_adjacent (a :: b :: l))
      with (adjacent a b ∧ consecutive_adjacent (b :: l)).
    rewrite getNeighbors_free, IH, Forall_cons. tauto.
Qed.

Lemma reach_walk this a b :
  reach this a b → ∃ l, walk this a l ∧ last (a :: l) = Some b.
Proof.
  induction 1 as [|b c _ (l & Hw & Hl) Hc].
  - by exists [].
  - exists (l ++ [c]). split; [by eapply walk_snoc|].
    change (a :: l ++ [c]) with ((a :: l) ++ [c]). by rewrite last_snoc.
Qed.

(** The cells [reach] collects by following [getNeighbors] are exactly the
    cells reachable by an obstacle-free 4-connected route. *)
Lemma reachable_reach this a b : reachable this a b ↔ reach this a b.
Proof.
  split.
  - intros (l & Hadj & Hfree & Hl).
    apply (walk_reach this a l b); [|done]. by apply walk_free.
  - intros (l & Hw & Hl)%reach_walk. exists l.
    apply walk_free in Hw as [? ?]. by repeat split.
Qed.

(** C4: when the obstacles enclose end, so that no obstacle-free
    4-connected route leads from start to end, the search returns, reports
    not found, and its visited set is exactly the set of the cells
    reachable from start through non-obstacle cells. *)
Theorem C4_unreachable_end this fuel :
  ¬ reachable this (startPos this) (endPos this) →
  (enough_fuel this ≤ fuel)%nat →
  ∃ r, search fuel this = Some r ∧ found r = false ∧
    ∀ k, k ∈ visitedCells r ↔
      ∃ n, k = key n ∧ reachable this (startPos this) n.
Proof.
  intros Hnr Hfuel. destruct (search_total this fuel Hfuel) as [r Hr].
  exists r. split; [done|].
  pose proof (search_Post _ _ _ Hr) as HP.
  destruct (found r) eqn:Hf.
  - destruct (post_found _ _ HP Hf) as (Hw & Hl & _).
    destruct Hnr. exists (path r). apply walk_free in Hw as [? ?].
    by repeat split.
  - split; [done|]. intros k. split.
    + intros Hk. destruct (post_vis _ _ HP _ Hk) as (n & -> & _ & Hn).
      exists n. split; [done|]. by apply reachable_reach.
    + intros (n & -> & Hn). apply (post_none _ _ HP Hf).
      by apply reachable_reach.
Qed.

Lemma enclosed_reachable n :
  reachable enclosed (startPos enclosed) n →
  n ∈ [mkPos 0 0; mkPos 0 1; mkPos 0 2; mkPos 1 0; mkPos 1 1; mkPos 2 0].
Proof.
  intros Hn%reachable_reach.
  induction Hn as [|b c _ Hb Hc]; [by left|].
  repeat (apply elem_of_cons in Hb as [->|Hb]);
    [..|by apply elem_of_nil in Hb];
    vm_compute in Hc;
    repeat (apply elem_of_cons in Hc as [->|Hc]);
    try (by apply elem_of_nil in Hc);
    rewrite !elem_of_cons; tauto.
Qed.

Lemma C4_unreachable_end_witness :
  ∃ r, search 250 enclosed = Some r ∧ found r = false ∧
    ∀ k, k ∈ visitedCells r ↔
      ∃ n, k = key n ∧ reachable enclosed (startPos enclosed) n.
Proof.
  apply (C4_unreachable_end enclosed 250).
  - intros H%enclosed_reachable.
    repeat (apply elem_of_cons in H as [H|H]; [discriminate H|]).
    by apply elem_of_nil in H.
  - vm_compute. lia.
Defined.

(** C5: when start lies inside the grid and is not an obstacle, every key
    of the visited set is the key of a cell inside the grid that is not an
    obstacle. *)
Theorem C5_visited_in_bounds_free this fuel r :
  in_bounds this (startPos this) →
  isWall this (row (startPos this)) (col (startPos this)) = false →
  search fuel this = Some r →
  ∀ k, k ∈ visitedCells r →
    ∃ c, k = key c ∧ in_bounds this c ∧ isWall this (row c) (col c) = false.
Proof.
  intros Hb Hw Hr k Hk. pose proof (search_Post _ _ _ Hr) as HP.
  destruct (post_vis _ _ HP _ Hk) as (n & -> & _ & Hn).
  exists n. split; [done|].
  apply reach_in_bounds in Hn as [->|[? Hnw]]; [done|].
  split; [done|]. unfold isWall. apply bool_decide_eq_false. by destruct n.
Qed.

Lemma C5_visited_in_bounds_free_witness :
  ∃ r, search 20 corridor = Some r ∧
    ∀ k, k ∈ visitedCells r →
      ∃ c, k = key c ∧ in_bounds corridor c ∧
           isWall corridor (row c) (col c) = false.
Proof.
  eexists. split; [vm_compute; reflexivity|].
  apply (C5_visited_in_bounds_free corridor 20).
  - unfold in_bounds. simpl. lia.
  - vm_compute. reflexivity.
  - vm_compute. reflexivity.
Defined.

(** C6: a second [findPath] on the object the first one left returns the
    same value and paints the same tiles, the two searches have the same
    path and the same visited set, and the first call changed none of
    dimensions, endpoints and walls; in the scan of the open set the first
    member with the least fScore wins. *)
Theorem C6_search_deterministic this fuel1 fuel2 this1 ret1 this2 ret2 :
  findPath fuel1 this = Some (this1, ret1) →
  findPath fuel2 this1 = Some (this2, ret2) →
  (ret2 = ret1 ∧ this2 = this1 ∧ same_model this this1 ∧
   ∀ r1 r2, search fuel1 this = Some r1 → search fuel2 this1 = Some r2 →
     path r2 = path r1 ∧ visitedCells r2 = visitedCells r1) ∧
  (∀ fS first rest c j,
     (∀ p, p ∈ first :: rest → ∃ z, get fS (key p) = Int z) →
     lowest fS rest 1 first 0 = (c, j) →
     (first :: rest) !! j = Some c ∧
     ∀ k p, (first :: rest) !! k = Some p →
       fval fS c ≤ fval fS p ∧ ((k < j)%nat → fval fS c < fval fS p)).
Proof.
  intros (r1 & Hr1 & -> & ->)%findPath_Some (r2 & Hr2 & -> & ->)%findPath_Some.
  split.
  - rewrite <-(search_same_model this) in Hr2 by apply renderGrid_same_model.
    pose proof (search_fuel_irrelevant _ _ _ _ _ Hr1 Hr2) as <-.
    split; [done|]. split; [done|]. split; [apply renderGrid_same_model|].
    intros r1' r2' Hr1' Hr2'.
    rewrite <-(search_same_model this) in Hr2' by apply renderGrid_same_model.
    pose proof (search_fuel_irrelevant _ _ _ _ _ Hr1' Hr2') as <-. done.
  - intros fS first rest c j Hint Hl. split.
    + by apply (lowest_lookup fS (first :: rest) rest 1 first 0 c j).
    + apply (lowest_first_min fS (first :: rest) Hint rest 1 first 0 c j);
        [done|done|lia| |done].
      intros k p Hk Hp. assert (k = 0)%nat as -> by lia.
      simpl in Hp. simplify_eq. split; lia.
Qed.

Lemma C6_search_deterministic_witness :
  ∃ this1 ret1 this2 ret2,
    findPath 20 corridor = Some (this1, ret1) ∧
    findPath 30 this1 = Some (this2, ret2) ∧
    ret2 = ret1 ∧ this2 = this1.
Proof.
  eexists _, _, _, _.
  split; [vm_compute; reflexivity|]. split; [vm_compute; reflexivity|].
  edestruct (C6_search_deterministic corridor 20 30) as [(H1 & H2 & _) _];
    [vm_compute; reflexivity|vm_compute; reflexivity|].
  split; [exact H1|exact H2].
Defined.

(** C7: [toggleWall] leaves the object unchanged on the start and end
    cells; on any other cell it flips the membership of that cell's key in
    the wall set and leaves the other keys alone; toggling the same cell
    twice gives back the wall set, hence the result of every later search;
    and the call terminates. *)
Theorem C7_toggle_wall this fuel r c :
  (isStart this r c || isEnd this r c = true →
     toggleWall fuel this r c = Some this) ∧
  (isStart this r c || isEnd this r c = false →
     ∀ this1, toggleWall fuel this r c = Some this1 →
       ∀ k, k ∈ walls this1 ↔
         (if decide (k = key (mkPos r c)) then k ∉ walls this
          else k ∈ walls this)) ∧
  (∀ fuel' this1 this2,
     toggleWall fuel this r c = Some this1 →
     toggleWall fuel' this1 r c = Some this2 →
     walls this2 = walls this ∧ same_model this2 this ∧
     ∀ f, search f this2 = search f this) ∧
  (∀ extra, is_Some (toggleWall (enough_fuel this + extra) this r c)).
Proof.
  split; [apply toggleWall_endpoint|]. split; [|split].
  - intros Hne this1 H1 k.
    destruct (toggleWall_Some _ _ _ _ _ Hne H1) as (_ & _ & _ & _ & ->).
    case_bool_decide; case_decide; subst;
      rewrite ?elem_of_difference, ?elem_of_union, ?elem_of_singleton; tauto.
  - intros fuel' this1 this2 H1 H2.
    destruct (isStart this r c || isEnd this r c) eqn:Hep.
    + rewrite (toggleWall_endpoint _ _ _ _ Hep) in H1. injection H1 as <-.
      rewrite (toggleWall_endpoint _ _ _ _ Hep) in H2. injection H2 as <-.
      by repeat split.
    + destruct (toggleWall_Some _ _ _ _ _ Hep H1) as (Hr1 & Hc1 & Hs1 & He1 & Hw1).
      assert (isStart this1 r c || isEnd this1 r c = false) as Hep1.
      { unfold isStart, isEnd in *. by rewrite Hs1, He1. }
      destruct (toggleWall_Some _ _ _ _ _ Hep1 H2) as (Hr2 & Hc2 & Hs2 & He2 & Hw2).
      assert (walls this2 = walls this) as Hw.
      { rewrite Hw2, Hw1. apply toggle_twice. }
      assert (same_model this2 this) as Hm.
      { repeat split; congruence. }
      split; [done|]. split; [done|]. intros f. by apply search_same_model.
  - intros extra. unfold toggleWall.
    destruct (isStart this r c || isEnd this r c); [eauto|].
    set (this1 := if bool_decide _ then _ else _).
    assert (enough_fuel this1 = enough_fuel this) as E
      by (unfold this1; by destruct (bool_decide _)).
    destruct (search_total this1 (enough_fuel this + extra)) as [res Hres];
      [lia|].
    unfold findPath. rewrite Hres. simpl. eauto.
Qed.

Lemma C7_toggle_wall_witness :
  ∃ this1 this2,
    toggleWall 20 corridor 1 1 = Some this1 ∧
    toggleWall 20 this1 1 1 = Some this2 ∧
    walls this2 = walls corridor ∧
    toggleWall 20 corridor 0 0 = Some corridor.
Proof.
  eexists _, _.
  split; [vm_compute; reflexivity|]. split; [vm_compute; reflexivity|].
  destruct (C7_toggle_wall corridor 20 1 1) as (_ & _ & Htwice & _).
  destruct (C7_toggle_wall corridor 20 0 0) as (Hend & _).
  split.
  - edestruct (Htwice 20%nat) as (Hw & _); [vm_compute; reflexivity..|].
    exact Hw.
  - apply Hend. vm_compute. reflexivity.
Defined.

(** C8, as stated, fails: with start = end the search returns the empty
    path, not the one-cell path [start]. *)
Lemma C8_counterexample :
  ¬ (∀ this fuel r, startPos this = endPos this →
       search fuel this = Some r → path r = [startPos this]).
Proof.
  intros H.
  specialize (H same_cell 5%nat (mkResult [] ∅ true) eq_refl).
  discriminate H. vm_compute. reflexivity.
Qed.

(** C8, amended: when start equals end, the search reports found with an
    empty path and an empty visited set. *)
Theorem C8_start_is_end this fuel r :
  startPos this = endPos this →
  search fuel this = Some r →
  found r = true ∧ path r = [] ∧ visitedCells r = ∅.
Proof.
  intros He. unfold search. destruct fuel as [|fuel]; [done|].
  simpl. rewrite He.
  rewrite !bool_decide_eq_true_2 by done. simpl.
  rewrite lookup_empty. simpl. by intros [= <-].
Qed.

Lemma C8_start_is_end_witness :
  ∃ r, search 5 same_cell = Some r ∧
    found r = true ∧ path r = [] ∧ visitedCells r = ∅.
Proof.
  eexists. split; [vm_compute; reflexivity|].
  apply (C8_start_is_end same_cell 5); [reflexivity|]. vm_compute. reflexivity.
Defined.

(** C9: one call of the search terminates, whatever the dimensions, the
    obstacles, start and end: [enough_fuel] iterations always suffice, both
    for the loop and for [findPath] as a whole. *)
Theorem C9_search_terminates this extra :
  is_Some (search (enough_fuel this + extra) this) ∧
  is_Some (findPath (enough_fuel this + extra) this).
Proof.
  assert (is_Some (search (enough_fuel this + extra) this)) as [r Hr].
  { apply search_total. lia. }
  split; [eauto|]. unfold findPath. rewrite Hr. simpl. eauto.
Qed.

(** C10: when the search reports found, the key of the end cell is not in
    the visited set. *)
Theorem C10_end_not_visited this fuel r :
  search fuel this = Some r → found r = true →
  key (endPos this) ∉ visitedCells r.
Proof.
  intros Hr _ Hk. pose proof (search_Post _ _ _ Hr) as HP.
  destruct (post_vis _ _ HP _ Hk) as (n & Hn & Hne & _).
  by apply (inj key) in Hn as <-.
Qed.

Lemma C10_end_not_visited_witness :
  ∃ r, search 20 corridor = Some r ∧ found r = true ∧
       key (endPos corridor) ∉ visitedCells r.
Proof.
  eexists. split; [vm_compute; reflexivity|]. split; [reflexivity|].
  apply (C10_end_not_visited corridor 20); [vm_compute|]; reflexivity.
Defined.

(** * Further properties of the code *)

(** ** Keys, neighbours, heuristic *)

(** X1: two cells with the same key are the same cell. *)
Theorem X1_key_injective (a b : Pos) : key a = key b ↔ a = b.
Proof. split; [apply (inj key)|by intros ->]. Qed.

Lemma sublist_if_singleton {A} (b : bool) (x : A) l k :
  l `sublist_of` k → ((if b then [x] else []) ++ l) `sublist_of` (x :: k).
Proof. destruct b; simpl; [by apply sublist_skip|by apply sublist_cons]. Qed.

(** X2: [getNeighbors] returns, in the order up, down, left, right, exactly
    those of the four cells next to (r, c) that lie inside the grid and are
    not walls; so at most four cells, none twice. *)
Theorem X2_getNeighbors_spec this r c :
  getNeighbors this r c `sublist_of` candidates r c ∧
  (∀ n, n ∈ getNeighbors this r c ↔
     n ∈ candidates r c ∧ in_bounds this n ∧
     isWall this (row n) (col n) = false) ∧
  (length (getNeighbors this r c) ≤ 4)%nat ∧
  NoDup (getNeighbors this r c).
Proof.
  assert (getNeighbors this r c `sublist_of` candidates r c) as Hsub.
  { rewrite getNeighbors_unfold. unfold candidates.
    replace (r + 0) with r by lia. replace (c + 0) with c by lia.
    replace (r + -1) with (r - 1) by lia. replace (c + -1) with (c - 1) by lia.
    do 3 apply sublist_if_singleton.
    case_match; [done|apply sublist_nil_l]. }
  assert (NoDup (candidates r c)) as Hnd.
  { unfold candidates. repeat (apply NoDup_cons; split);
      [..|apply NoDup_nil_2];
      rewrite ?elem_of_cons, ?elem_of_nil; intros H;
      repeat destruct H as [H|H]; try done; injection H; lia. }
  split; [done|]. split; [|split].
  - intros n. rewrite elem_of_getNeighbors. unfold candidates.
    rewrite !elem_of_cons, elem_of_nil. destruct n as [nr nc]. simpl.
    split.
    + intros (? & ? & [[-> ->]|[[-> ->]|[[-> ->]|[-> ->]]]]); tauto.
    + intros ([E|[E|[E|[E|[]]]]] & ? & ?); injection E as -> ->;
        (split; [done|]); (split; [done|]); lia.
  - apply sublist_length in Hsub. simpl in Hsub. lia.
  - by eapply sublist_NoDup.
Qed.

(** X3: between two cells inside the grid that are not walls, being a
    neighbour goes both ways. *)
Theorem X3_getNeighbors_symmetric this a b :
  in_bounds this a → isWall this (row a) (col a) = false →
  b ∈ getNeighbors this (row a) (col a) →
  a ∈ getNeighbors this (row b) (col b).
Proof.
  intros Ha Hw. rewrite !elem_of_getNeighbors. intros (_ & _ & Hd).
  split; [done|]. split; [done|]. lia.
Qed.

Lemma X3_getNeighbors_symmetric_witness :
  mkPos 0 0 ∈ getNeighbors corridor 0 1.
Proof.
  apply (X3_getNeighbors_symmetric corridor (mkPos 0 0) (mkPos 0 1)).
  - unfold in_bounds. simpl. lia.
  - vm_compute. reflexivity.
  - vm_compute. apply elem_of_cons. right. apply elem_of_cons. by left.
Defined.

(** X4: [heuristic] is a metric on cells: never negative, zero exactly
    between a cell and itself, symmetric, and it satisfies the triangle
    inequality. *)
Theorem X4_heuristic_metric (a b c : Pos) :
  0 ≤ heuristic a b ∧
  (heuristic a b = 0 ↔ a = b) ∧
  heuristic a b = heuristic b a ∧
  heuristic a c ≤ heuristic a b + heuristic b c.
Proof.
  unfold heuristic. split; [lia|]. split; [|lia]. split.
  - intros H. apply Pos_eq; lia.
  - intros ->. lia.
Qed.

(** X5: [heuristic] never overestimates: any walk from [a] to [b] through
    cells [getNeighbors] offers has at least [heuristic a b] moves; and one
    move changes the heuristic to a fixed cell by exactly one. *)
Theorem X5_heuristic_admissible this a b l e :
  walk this a l → last (a :: l) = Some b →
  heuristic a b ≤ Z.of_nat (length l) ∧
  ∀ n, n ∈ getNeighbors this (row a) (col a) →
    Z.abs (heuristic a e - heuristic n e) = 1.
Proof.
  intros Hw Hl. split; [by eapply walk_length|].
  intros n. rewrite elem_of_getNeighbors. unfold heuristic. lia.
Qed.

Lemma X5_heuristic_admissible_witness :
  heuristic (mkPos 0 0) (mkPos 1 1) ≤ Z.of_nat (length [mkPos 0 1; mkPos 1 1]) ∧
  ∀ n, n ∈ getNeighbors corridor 0 0 →
    Z.abs (heuristic (mkPos 0 0) (mkPos 2 2) - heuristic n (mkPos 2 2)) = 1.
Proof.
  apply (X5_heuristic_admissible corridor (mkPos 0 0) (mkPos 1 1)
           [mkPos 0 1; mkPos 1 1] (mkPos 2 2)).
  - simpl. split; [|split; [|done]].
    + vm_compute. apply elem_of_cons. right. apply elem_of_cons. by left.
    + vm_compute. apply elem_of_cons. by left.
  - reflexivity.
Defined.

(** ** The search: completeness, shortest paths, shape of the result *)

(** X6: the search reports found exactly when end can be walked to from
    start through cells [getNeighbors] offers. *)
Theorem X6_found_iff_reachable this fuel r :
  search fuel this = Some r →
  (found r = true ↔ reach this (startPos this) (endPos this)).
Proof.
  intros Hr. pose proof (search_Post _ _ _ Hr) as HP. split.
  - intros Hf. destruct (post_found _ _ HP Hf) as (Hw & Hl & _).
    by eapply walk_reach.
  - intros Hreach. destruct (found r) eqn:Hf; [done|].
    destruct (post_none _ _ HP Hf) as [_ Hall].
    destruct (post_vis _ _ HP _ (Hall _ Hreach)) as (n & Hk & Hne & _).
    by apply (inj key) in Hk as <-.
Qed.

Lemma X6_found_iff_reachable_witness :
  ∃ r, search 20 corridor = Some r ∧
       (found r = true ↔ reach corridor (startPos corridor) (endPos corridor)).
Proof.
  eexists. split; [vm_compute; reflexivity|].
  apply (X6_found_iff_reachable corridor 20). vm_compute. reflexivity.
Defined.

Lemma foldl_relax_changed this c gc l : ∀ st,
  Inv this st →
  gScore st !! key c = Some (Int gc) →
  (∀ n, n ∈ l → n ∈ getNeighbors this (row c) (col c)) →
  ∀ n z', gScore (foldl (relax (endPos this) c) st l) !! key n = Some (Int z') →
    gScore st !! key n = Some (Int z') ∨
    n ∈ openSet (foldl (relax (endPos this) c) st l).
Proof.
  induction l as [|n0 l IH]; intros st HI Hc Hl n z'; simpl; [by left|].
  intros Hz.
  destruct (relax_Relaxed this st c gc n0 HI Hc) as [H1 _].
  { apply Hl. by left. }
  destruct (foldl_relax_Relaxed this c gc l (relax (endPos this) c st n0))
    as [H2 _].
  { apply H1. } { apply H1. } { intros m Hm. apply Hl. by right. }
  destruct (IH (relax (endPos this) c st n0)) with (n := n) (z' := z')
    as [Hold|Hin]; [apply H1|apply H1|intros m Hm; apply Hl; by right|done|
                    |by right].
  destruct (relax_cases (endPos this) c gc st n0 Hc) as [[E _]|[E _]].
  { intros v Hv. destruct (inv_g _ _ HI _ _ Hv) as (? & z & _ & -> & _). eauto. }
  - rewrite E in Hold. by left.
  - rewrite E in Hold. simpl in Hold. rewrite lookup_insert in Hold.
    case_decide as Hk; [|by left].
    apply (inj key) in Hk as <-. right.
    apply (rl_open _ _ _ _ _ H2). rewrite E.
    apply elem_of_improved_openSet. by right.
Qed.

Lemma Settled_init this : Settled this (init_state this).
Proof. intros n n' H. by apply not_elem_of_empty in H. Qed.

Lemma step_Settled this st first rest c j :
  Inv this st → Settled this st →
  openSet st = first :: rest →
  lowest (fScore st) rest 1 first 0 = (c, j) →
  c ≠ endPos this →
  Settled this (foldl (relax (endPos this) c) (popped st c j)
                  (getNeighbors this (row c) (col c))).
Proof.
  intros HI HS Ho Hl Hne.
  pose proof (lowest_openSet _ _ _ _ _ Ho Hl) as Hj.
  destruct (step_Relaxed _ _ _ _ _ _ HI Ho Hl Hne) as (gc & Hgc & HR & Hall).
  intros n n'. rewrite (rl_vis _ _ _ _ _ HR). simpl. intros Hvis Hnotin Hn'.
  destruct (decide (n = c)) as [->|Hnc].
  - destruct (Hall n' Hn') as (z' & Hz' & Hle).
    exists gc, z'. split; [apply HR|done].
  - assert (key n ∈ visited st) as Hv.
    { apply elem_of_union in Hvis as [Hk%elem_of_singleton|?]; [|done].
      by apply (inj key) in Hk. }
    assert (n ∉ openSet st) as Hno.
    { intros Hin. apply Hnotin, (rl_open _ _ _ _ _ HR). simpl.
      by eapply elem_of_delete_ne. }
    destruct (HS n n' Hv Hno Hn') as (z & z' & Hz & Hz' & Hle).
    destruct (rl_mono _ _ _ _ _ HR _ _ Hz') as (z2' & Hz2' & Hle').
    destruct (rl_mono _ _ _ _ _ HR _ _ Hz) as (z2 & Hz2 & _).
    destruct (foldl_relax_changed this c gc
                (getNeighbors this (row c) (col c)) (popped st c j))
      with (n := n) (z' := z2)
      as [Hsame|Hin]; [by apply popped_Inv|done|done|done| |done].
    simpl in Hsame. assert (z2 = z) as -> by congruence.
    exists z, z2'. split; [done|]. split; [done|lia].
Qed.

(** Along any walk to end from a scored cell, some cell is still open, and
    its score plus the rest of the walk is no more than the score of the
    first cell plus the whole walk. *)
Lemma open_on_walk this st :
  Inv this st → Settled this st →
  ∀ l a z,
    gScore st !! key a = Some (Int z) →
    walk this a l → last (a :: l) = Some (endPos this) →
    ∃ m zm rest,
      m ∈ openSet st ∧ gScore st !! key m = Some (Int zm) ∧
      walk this m rest ∧ last (m :: rest) = Some (endPos this) ∧
      zm + Z.of_nat (length rest) ≤ z + Z.of_nat (length l).
Proof.
  intros HI HS l. induction l as [|b l IH]; intros a z Hz Hw Hl.
  - simpl in Hl. simplify_eq.
    destruct (Inv_lookup _ _ _ HI (mk_is_Some _ _ Hz))
      as (_ & _ & _ & _ & _ & _ & [Hv|Ho] & _).
    + destruct (inv_vis _ _ HI _ Hv) as (n & Hk & Hne & _).
      by apply (inj key) in Hk as <-.
    + exists (endPos this), z, []. repeat split; try done; lia.
  - destruct (decide (a ∈ openSet st)) as [Ho|Hno].
    { exists a, z, (b :: l). destruct Hw as [??].
      repeat split; try done; lia. }
    destruct (Inv_lookup _ _ _ HI (mk_is_Some _ _ Hz))
      as (_ & _ & _ & _ & _ & _ & [Hv|Ho] & _); [|done].
    destruct Hw as [Hb Hw].
    destruct (HS a b Hv Hno Hb) as (za & zb & Hza & Hzb & Hle).
    assert (za = z) as -> by congruence.
    destruct (IH b zb Hzb Hw) as (m & zm & rest & ? & ? & ? & ? & ?).
    { by destruct l. }
    exists m, zm, rest. repeat split; try done. simpl length. lia.
Qed.

Lemma search_loop_shortest this rfuel fuel st r :
  Inv this st → Settled this st →
  search_loop rfuel fuel this st = Some r →
  found r = true →
  ∀ l, walk this (startPos this) l →
       last (startPos this :: l) = Some (endPos this) →
       (length (path r) ≤ length l)%nat.
Proof.
  intros HI HS.
  apply (search_loop_rule this rfuel
           (fun st => Inv this st ∧ Settled this st)
           (fun r => found r = true →
              ∀ l, walk this (startPos this) l →
                   last (startPos this :: l) = Some (endPos this) →
                   (length (path r) ≤ length l)%nat)); [..|done].
  - clear. intros st _ _. simpl. done.
  - clear. intros st first rest j p [HI HS] Ho Hl Hp _ l Hw Hlast. simpl.
    pose proof (lowest_openSet _ _ _ _ _ Ho Hl) as Hj.
    assert (∀ q, q ∈ openSet st →
              ∃ z, gScore st !! key q = Some (Int z) ∧ 0 ≤ z ∧
                   fval (fScore st) q = z + heuristic q (endPos this)) as Hf.
    { intros q Hq.
      destruct (Inv_lookup this st q HI) as (z & Hz & ? & _ & _ & _ & _ & Hfs).
      { by apply HI. }
      exists z. split; [done|]. split; [done|]. unfold fval, get. by rewrite Hfs. }
    destruct (open_on_walk this st HI HS l (startPos this) 0 (inv_start _ _ HI)
                Hw Hlast) as (m & zm & tl & Hm & Hzm & Hwm & Hlm & Hsum).
    destruct (list_elem_of_lookup_1 _ _ Hm) as [k Hk].
    assert (fval (fScore st) (endPos this) ≤ fval (fScore st) m) as Hle.
    { rewrite Ho in Hk.
      refine (proj1 (lowest_first_min (fScore st) (first :: rest) _
                       rest 1 first 0 (endPos this) j eq_refl eq_refl _ _ Hl
                       k m Hk)).
      - intros q Hq. rewrite <-Ho in Hq.
        destruct (Inv_lookup this st q HI) as (z & _ & _ & _ & _ & _ & _ & Hfs).
        { by apply HI. }
        unfold get. rewrite Hfs. eauto.
      - lia.
      - intros k' q Hk' Hq. assert (k' = 0)%nat as -> by lia.
        simpl in Hq. simplify_eq. split; lia. }
    destruct (Hf (endPos this)) as (ge & Hge & Hge0 & Hfe).
    { eapply list_elem_of_lookup_2, Hj. }
    destruct (Hf m Hm) as (zm' & Hzm' & _ & Hfm).
    assert (zm' = zm) as -> by congruence.
    pose proof (walk_length _ _ _ _ Hwm Hlm).
    rewrite heuristic_refl in Hfe.
    destruct (found_path _ _ _ _ _ _ HI Hge Hp) as (_ & _ & Hlen & _).
    lia.
  - clear. intros st first rest c j [HI HS] Ho Hl Hne. split.
    + by eapply step_Inv.
    + by eapply step_Settled.
Qed.

(** X7: the path the search returns is a shortest one: no walk from start
    to end through cells [getNeighbors] offers has fewer moves, whatever
    the walls. *)
Theorem X7_path_is_shortest this fuel r l :
  search fuel this = Some r → found r = true →
  walk this (startPos this) l →
  last (startPos this :: l) = Some (endPos this) →
  (length (path r) ≤ length l)%nat.
Proof.
  intros Hr Hf Hw Hl.
  by apply (search_loop_shortest this fuel fuel (init_state this) r
              (Inv_init this) (Settled_init this) Hr Hf l).
Qed.

Lemma X7_path_is_shortest_witness :
  ∃ r, search 20 corridor = Some r ∧
       (length (path r)
        ≤ length [mkPos 0 1; mkPos 0 2; mkPos 1 2; mkPos 2 2])%nat.
Proof.
  eexists. split; [vm_compute; reflexivity|].
  apply (X7_path_is_shortest corridor 20).
  - vm_compute. reflexivity.
  - reflexivity.
  - simpl. repeat split;
      (apply elem_of_getNeighbors; unfold in_bounds; simpl;
       split; [lia|split; [vm_compute; reflexivity|lia]]).
  - reflexivity.
Defined.

Lemma reconstruct_NoDup this st :
  Inv this st →
  ∀ fuel temp acc z p,
    gScore st !! key temp = Some (Int z) →
    reconstruct fuel (cameFrom st) temp acc = Some p →
    ∃ l, p = l ++ acc ∧ NoDup l ∧
         ∀ q, q ∈ l → ∃ zq, gScore st !! key q = Some (Int zq) ∧ zq ≤ z.
Proof.
  intros HI fuel. induction fuel as [|fuel IH]; intros temp acc z p Hz; simpl.
  - destruct (cameFrom st !! key temp); [done|]. intros [= <-].
    exists []. split; [done|]. split; [constructor|].
    intros q Hq. by apply elem_of_nil in Hq.
  - destruct (cameFrom st !! key temp) as [prev|] eqn:Hprev.
    + intros Hp.
      destruct (inv_cf _ _ HI _ _ Hprev) as (n & vp & vn & Hk & _ & Hvp & Hvn & Hle).
      assert (vn = z) as -> by congruence.
      destruct (IH prev (temp :: acc) vp p Hvp Hp) as (l & -> & Hnd & Hall).
      exists (l ++ [temp]). rewrite <-app_assoc. split; [done|]. split.
      * apply NoDup_app. split; [done|]. split; [|apply NoDup_singleton].
        intros q Hq ->%list_elem_of_singleton.
        destruct (Hall _ Hq) as (zq & Hzq & ?). simplify_eq. lia.
      * intros q [Hq| ->%list_elem_of_singleton]%elem_of_app.
        -- destruct (Hall _ Hq) as (zq & Hzq & ?). exists zq. split; [done|lia].
        -- exists z. split; [done|lia].
    + intros [= <-]. exists []. split; [done|]. split; [constructor|].
      intros q Hq. by apply elem_of_nil in Hq.
Qed.

(** X8: no cell occurs twice in the returned path, and start is not in
    it. *)
Theorem X8_path_no_duplicates this fuel r :
  search fuel this = Some r → NoDup (startPos this :: path r).
Proof.
  apply (search_loop_rule this fuel (Inv this)
           (fun r => NoDup (startPos this :: path r)));
    [..|apply Inv_init].
  - intros st _ _. simpl. apply NoDup_singleton.
  - intros st first rest j p HI Ho Hl Hp. simpl.
    pose proof (lowest_openSet _ _ _ _ _ Ho Hl) as Hj.
    destruct (Inv_lookup this st (endPos this) HI) as (z & Hz & _).
    { eapply (inv_open _ _ HI), list_elem_of_lookup_2, Hj. }
    destruct (found_path _ _ _ _ _ _ HI Hz Hp) as (_ & _ & _ & Hcf).
    destruct (reconstruct_NoDup this st HI _ _ _ _ _ Hz Hp) as (l & -> & Hnd & _).
    rewrite app_nil_r in *. apply NoDup_cons. split; [|done].
    intros Hin. apply Hcf in Hin. rewrite (inv_start_cf _ _ HI) in Hin.
    by destruct Hin.
  - intros st first rest c j HI Ho Hl Hne. by eapply step_Inv.
Qed.

Lemma X8_path_no_duplicates_witness :
  ∃ r, search 20 corridor = Some r ∧ NoDup (startPos corridor :: path r).
Proof.
  eexists. split; [vm_compute; reflexivity|].
  apply (X8_path_no_duplicates corridor 20). vm_compute. reflexivity.
Defined.

Lemma relax_PredVisited end_ c st n :
  PredVisited st → key c ∈ visited st → PredVisited (relax end_ c st n).
Proof.
  intros HP Hc. unfold relax. case_match; [|done].
  intros k p. simpl. rewrite lookup_insert. case_decide; [|apply HP].
  by intros [= <-].
Qed.

Lemma relax_visited end_ c st n : visited (relax end_ c st n) = visited st.
Proof. unfold relax. by case_match. Qed.

Lemma foldl_relax_PredVisited end_ c l : ∀ st,
  PredVisited st → key c ∈ visited st →
  PredVisited (foldl (relax end_ c) st l).
Proof.
  induction l as [|n l IH]; intros st HP Hc; simpl; [done|].
  apply IH; [by apply relax_PredVisited|by rewrite relax_visited].
Qed.

Lemma reconstruct_linked this st :
  Inv this st →
  ∀ fuel temp acc p,
    is_Some (gScore st !! key temp) →
    linked (cameFrom st) temp acc →
    reconstruct fuel (cameFrom st) temp acc = Some p →
    linked (cameFrom st) (startPos this) p.
Proof.
  intros HI fuel. induction fuel as [|fuel IH]; intros temp acc p Hg Hlk; simpl.
  - destruct (cameFrom st !! key temp) eqn:Hprev; [done|]. intros [= <-].
    destruct (Inv_lookup _ _ _ HI Hg) as (_ & _ & _ & _ & _ & [->|[? ?]] & _);
      [done|congruence].
  - destruct (cameFrom st !! key temp) as [prev|] eqn:Hprev.
    + apply IH; [|done].
      destruct (inv_cf _ _ HI _ _ Hprev) as (_ & vp & _ & _ & _ & Hvp & _). eauto.
    + intros [= <-].
      destruct (Inv_lookup _ _ _ HI Hg) as (_ & _ & _ & _ & _ & [->|[? ?]] & _);
        [done|congruence].
Qed.

Lemma linked_visited st a l e :
  PredVisited st → linked (cameFrom st) a l → last (a :: l) = Some e →
  ∀ q, q ∈ a :: l → q ≠ e → key q ∈ visited st.
Proof.
  intros HP. revert a. induction l as [|b l IH]; intros a Hlk Hl q Hq Hne.
  - simpl in Hl. apply list_elem_of_singleton in Hq. congruence.
  - destruct Hlk as [Hb Hlk]. apply elem_of_cons in Hq as [->|Hq].
    + by eapply HP.
    + apply (IH b); try done; by destruct l.
Qed.

Lemma search_path_visited this fuel r :
  search fuel this = Some r → found r = true →
  ∀ q, q ∈ startPos this :: path r → q ≠ endPos this →
    key q ∈ visitedCells r.
Proof.
  apply (search_loop_rule this fuel
           (fun st => Inv this st ∧ PredVisited st)
           (fun r => found r = true →
              ∀ q, q ∈ startPos this :: path r → q ≠ endPos this →
                key q ∈ visitedCells r)).
  - intros st _ _. simpl. done.
  - intros st first rest j p [HI HP] Ho Hl Hp _. simpl.
    pose proof (lowest_openSet _ _ _ _ _ Ho Hl) as Hj.
    assert (is_Some (gScore st !! key (endPos this))) as Hg.
    { eapply (inv_open _ _ HI), list_elem_of_lookup_2, Hj. }
    destruct (Inv_lookup this st (endPos this) HI Hg) as (z & Hz & _).
    destruct (found_path _ _ _ _ _ _ HI Hz Hp) as (_ & Hlast & _).
    pose proof (reconstruct_linked this st HI fuel (endPos this) [] p Hg I Hp)
      as Hlk.
    by apply (linked_visited st _ _ _ HP Hlk Hlast).
  - intros st first rest c j [HI HP] Ho Hl Hne. split; [by eapply step_Inv|].
    apply foldl_relax_PredVisited.
    + intros k p Hk. simpl. apply elem_of_union. right. by eapply HP.
    + simpl. apply elem_of_union. left. by apply elem_of_singleton.
  - split; [apply Inv_init|]. intros k p Hk. simpl in Hk.
    by rewrite lookup_empty in Hk.
Qed.

(** X9: when a path is found, start and every cell of the path other than
    end are in the visited set. *)
Theorem X9_path_cells_visited this fuel r :
  search fuel this = Some r → found r = true →
  ∀ q, q ∈ startPos this :: path r → q ≠ endPos this →
    key q ∈ visitedCells r.
Proof. apply search_path_visited. Qed.

Lemma X9_path_cells_visited_witness :
  ∃ r, search 20 corridor = Some r ∧
    ∀ q, q ∈ startPos corridor :: path r → q ≠ endPos corridor →
      key q ∈ visitedCells r.
Proof.
  eexists. split; [vm_compute; reflexivity|].
  apply (X9_path_cells_visited corridor 20); [vm_compute|]; reflexivity.
Defined.

(** ** Painting *)

Lemma tile_at_renderGrid this p vis r c :
  0 ≤ r < rows this → 0 ≤ c < cols this →
  tile_at (renderGrid this p vis) r c = Some (tileClass this p vis r c).
Proof.
  intros Hr Hc. unfold tile_at, renderGrid. simpl.
  rewrite !bool_decide_eq_true_2 by lia. simpl.
  rewrite list_lookup_fmap, lookup_seqZ_lt by lia. simpl.
  rewrite list_lookup_fmap, lookup_seqZ_lt by lia. simpl.
  do 2 f_equal; lia.
Qed.

Lemma tile_at_renderGrid_None this p vis r c :
  ¬ (0 ≤ r < rows this ∧ 0 ≤ c < cols this) →
  tile_at (renderGrid this p vis) r c = None.
Proof.
  intros Hout. unfold tile_at, renderGrid. simpl.
  destruct (bool_decide (0 ≤ r)) eqn:Hr; [|done].
  destruct (bool_decide (0 ≤ c)) eqn:Hc; [|done]. simpl.
  apply bool_decide_eq_true in Hr. apply bool_decide_eq_true in Hc.
  rewrite list_lookup_fmap.
  destruct (decide (r < rows this)).
  - rewrite lookup_seqZ_lt by lia. simpl.
    rewrite list_lookup_fmap, lookup_seqZ_ge by lia. done.
  - rewrite lookup_seqZ_ge by lia. done.
Qed.

Lemma isStart_true this r c :
  isStart this r c = true ↔ mkPos r c = startPos this.
Proof.
  unfold isStart. rewrite andb_true_iff, !bool_decide_eq_true.
  destruct (startPos this). simpl. split; [by intros [-> ->]|by intros [= -> ->]].
Qed.

Lemma isEnd_true this r c :
  isEnd this r c = true ↔ mkPos r c = endPos this.
Proof.
  unfold isEnd. rewrite andb_true_iff, !bool_decide_eq_true.
  destruct (endPos this). simpl. split; [by intros [-> ->]|by intros [= -> ->]].
Qed.

Lemma on_path_true (p : list Pos) r c :
  existsb (fun q => bool_decide (row q = r) && bool_decide (col q = c)) p = true
  ↔ mkPos r c ∈ p.
Proof.
  rewrite existsb_exists. split.
  - intros ([qr qc] & Hq%list_elem_of_In & Hrc).
    apply andb_true_iff in Hrc as [Hqr%bool_decide_eq_true Hqc%bool_decide_eq_true].
    simpl in *. by subst.
  - intros Hin. exists (mkPos r c). split; [by apply list_elem_of_In|].
    simpl. by rewrite !bool_decide_eq_true_2.
Qed.

Lemma tileClass_cases this p vis r c :
  let t := tileClass this p vis r c in
  let q := mkPos r c in
  (t = TileStart ↔ q = startPos this) ∧
  (t = TileEnd ↔ q = endPos this ∧ q ≠ startPos this) ∧
  (t = TileWall ↔ key q ∈ walls this ∧ q ≠ startPos this ∧ q ≠ endPos this) ∧
  (t = TilePath ↔
     q ∈ p ∧ (key q ∉ walls this) ∧ q ≠ startPos this ∧ q ≠ endPos this) ∧
  (t = TileVisited ↔
     key q ∈ vis ∧ (q ∉ p) ∧ (key q ∉ walls this) ∧
     q ≠ startPos this ∧ q ≠ endPos this).
Proof.
  simpl. unfold tileClass.
  pose proof (isStart_true this r c) as Hs.
  pose proof (isEnd_true this r c) as He.
  pose proof (on_path_true p r c) as Hp.
  assert (isWall this r c = true ↔ key (mkPos r c) ∈ walls this) as Hw
    by (unfold isWall; apply bool_decide_eq_true).
  assert (bool_decide (key (mkPos r c) ∈ vis) = true ↔ key (mkPos r c) ∈ vis)
    as Hv by apply bool_decide_eq_true.
  destruct (isStart this r c); [|destruct (isEnd this r c);
    [|destruct (isWall this r c);
      [|destruct (existsb _ p);
        [|destruct (bool_decide (key (mkPos r c) ∈ vis))]]]];
    repeat split; try done; try (intros; exfalso; intuition congruence);
    intuition congruence.
Qed.

(** X10: [renderGrid] repaints every tile of the [rows] x [cols] matrix,
    and no other, with exactly one class: start on the start cell; else end
    on the end cell; else wall on a wall; else path on a cell of the path;
    else visited on a cell whose key is in the visited set; else none.  The
    model fields are left as they were. *)
Theorem X10_renderGrid_tiles this p vis r c :
  (0 ≤ r < rows this ∧ 0 ≤ c < cols this →
   ∃ t, tile_at (renderGrid this p vis) r c = Some t ∧
     (t = TileStart ↔ mkPos r c = startPos this) ∧
     (t = TileEnd ↔ mkPos r c = endPos this ∧ mkPos r c ≠ startPos this) ∧
     (t = TileWall ↔
        key (mkPos r c) ∈ walls this ∧
        mkPos r c ≠ startPos this ∧ mkPos r c ≠ endPos this) ∧
     (t = TilePath ↔
        mkPos r c ∈ p ∧ (key (mkPos r c) ∉ walls this) ∧
        mkPos r c ≠ startPos this ∧ mkPos r c ≠ endPos this) ∧
     (t = TileVisited ↔
        key (mkPos r c) ∈ vis ∧ (mkPos r c ∉ p) ∧ (key (mkPos r c) ∉ walls this) ∧
        mkPos r c ≠ startPos this ∧ mkPos r c ≠ endPos this)) ∧
  (¬ (0 ≤ r < rows this ∧ 0 ≤ c < cols this) →
   tile_at (renderGrid this p vis) r c = None) ∧
  same_model this (renderGrid this p vis).
Proof.
  split; [|split].
  - intros [Hr Hc]. exists (tileClass this p vis r c).
    split; [by apply tile_at_renderGrid|]. apply tileClass_cases.
  - apply tile_at_renderGrid_None.
  - apply renderGrid_same_model.
Qed.

(** X11: after [findPath], the tiles painted as path are exactly the cells
    of the path it found other than end, and the tiles painted as visited
    are exactly the expanded cells other than start that are not on the
    path. *)
Theorem X11_findPath_painting fuel this this' ret r c :
  findPath fuel this = Some (this', ret) →
  0 ≤ r < rows this → 0 ≤ c < cols this →
  ∃ res, search fuel this = Some res ∧
    (tile_at this' r c = Some TilePath ↔
       mkPos r c ∈ path res ∧ mkPos r c ≠ endPos this) ∧
    (tile_at this' r c = Some TileVisited ↔
       key (mkPos r c) ∈ visitedCells res ∧ (mkPos r c ∉ path res) ∧
       mkPos r c ≠ startPos this).
Proof.
  intros (res & Hres & -> & _)%findPath_Some Hr Hc.
  exists res. split; [done|].
  rewrite tile_at_renderGrid by done.
  destruct (tileClass_cases this (path res) (visitedCells res) r c)
    as (_ & _ & _ & Hpath & Hvis).
  pose proof (search_Post _ _ _ Hres) as HP.
  assert (∀ q, q ∈ path res → (key q ∉ walls this) ∧ q ≠ startPos this) as Hon.
  { intros q Hq. destruct (found res) eqn:Hf.
    - destruct (post_found _ _ HP Hf) as (Hw & _ & Hns).
      split; [by eapply walk_elem|by apply Hns].
    - destruct (post_none _ _ HP Hf) as [E _]. rewrite E in Hq.
      by apply elem_of_nil in Hq. }
  split.
  - split.
    + intros [= Ht]. apply Hpath in Ht. tauto.
    + intros [Hq Hne]. f_equal. apply Hpath. destruct (Hon _ Hq). tauto.
  - split.
    + intros [= Ht]. apply Hvis in Ht. tauto.
    + intros (Hk & Hnp & Hns). f_equal. apply Hvis.
      destruct (post_vis _ _ HP _ Hk) as (n & Hn & Hne & Hreach).
      apply (inj key) in Hn as <-.
      apply reach_in_bounds in Hreach as [?|[_ ?]]; [done|]. tauto.
Qed.

Lemma X11_findPath_painting_witness :
  ∃ this' ret,
    findPath 20 corridor = Some (this', ret) ∧
    ∃ res, search 20 corridor = Some res ∧
      (tile_at this' 1 0 = Some TilePath ↔
         mkPos 1 0 ∈ path res ∧ mkPos 1 0 ≠ endPos corridor) ∧
      (tile_at this' 1 0 = Some TileVisited ↔
         key (mkPos 1 0) ∈ visitedCells res ∧ (mkPos 1 0 ∉ path res) ∧
         mkPos 1 0 ≠ startPos corridor).
Proof.
  eexists _, _. split; [vm_compute; reflexivity|].
  eapply (X11_findPath_painting 20 corridor);
    [vm_compute; reflexivity|simpl; lia|simpl; lia].
Defined.

(** ** Clearing the walls *)

Lemma enough_fuel_dims this this' :
  rows this = rows this' → cols this = cols this' →
  enough_fuel this = enough_fuel this'.
Proof.
  intros Hr Hc. unfold enough_fuel, universe. simpl length. by rewrite Hr, Hc.
Qed.

Lemma findPath_total this fuel :
  (enough_fuel this ≤ fuel)%nat →
  ∃ res, search fuel this = Some res ∧
    findPath fuel this
    = Some (renderGrid this (path res) (visitedCells res),
            if found res then Some (path res) else None).
Proof.
  intros Hf. destruct (search_total this fuel Hf) as [res Hres].
  exists res. split; [done|]. unfold findPath. by rewrite Hres.
Qed.

(** X12: [clearWalls] empties the wall set and leaves dimensions, endpoints
    and drag state alone; if start and end lie inside the grid, the search
    it runs finds a path whose length is the Manhattan distance between
    them. *)
Theorem X12_clearWalls this fuel :
  (∀ this', clearWalls fuel this = Some this' →
     walls this' = ∅ ∧ rows this' = rows this ∧ cols this' = cols this ∧
     startPos this' = startPos this ∧ endPos this' = endPos this ∧
     isDragging this' = isDragging this ∧ dragType this' = dragType this) ∧
  (in_bounds this (startPos this) → in_bounds this (endPos this) →
   (enough_fuel this ≤ fuel)%nat →
   ∃ this' res, clearWalls fuel this = Some this' ∧
     search fuel this' = Some res ∧ found res = true ∧
     Z.of_nat (length (path res))
       = heuristic (startPos this) (endPos this)).
Proof.
  split.
  - intros this'. unfold clearWalls.
    destruct (findPath fuel _) as [[this1 ret]|] eqn:Hf; simpl; [|done].
    intros [= <-]. by apply findPath_Some in Hf as (res & _ & -> & _).
  - intros Hs He Hfuel. unfold clearWalls.
    destruct (findPath_total (set_walls this ∅) fuel) as (res & Hres & ->).
    { by rewrite (enough_fuel_dims (set_walls this ∅) this). }
    simpl. eexists _, res. split; [done|].
    split; [|].
    + rewrite <-Hres. symmetry. apply search_same_model, renderGrid_same_model.
    + destruct (search_loop_open_grid (set_walls this ∅) fuel fuel
                  (init_state (set_walls this ∅)) res) as (Hf & Hlen & _);
        try done; [apply Inv_init|apply Opt_init].
Qed.

Lemma X12_clearWalls_witness :
  ∃ this' res, clearWalls 50 blocked = Some this' ∧
    search 50 this' = Some res ∧ found res = true ∧
    Z.of_nat (length (path res)) = 2.
Proof.
  destruct (X12_clearWalls blocked 50) as [_ H]. apply H.
  - unfold in_bounds. simpl. lia.
  - unfold in_bounds. simpl. lia.
  - vm_compute. lia.
Defined.

(** ** Sessions *)

Lemma findPath_Handled fuel this ev X this' ret :
  Edit this ev X → findPath fuel X = Some (this', ret) →
  Handled fuel this ev this'.
Proof.
  intros HE (res & Hres & -> & _)%findPath_Some. by eapply handled_edit.
Qed.

Lemma fst_findPath_Handled fuel this ev X this' :
  Edit this ev X → fst <$> findPath fuel X = Some this' →
  Handled fuel this ev this'.
Proof.
  intros HE. destruct (findPath fuel X) as [[this1 ret]|] eqn:Hf; simpl; [|done].
  intros [= <-]. by eapply findPath_Handled.
Qed.

Lemma isStart_false this r c :
  isStart this r c = false ↔ mkPos r c ≠ startPos this.
Proof. rewrite <-isStart_true. by destruct (isStart this r c). Qed.

Lemma isEnd_false this r c :
  isEnd this r c = false ↔ mkPos r c ≠ endPos this.
Proof. rewrite <-isEnd_true. by destruct (isEnd this r c). Qed.

Lemma handle_Handled fuel this ev this' :
  handle fuel this ev = Some this' → Handled fuel this ev this'.
Proof.
  destruct ev as [r c|r c| |]; simpl.
  - unfold handleMouseDown.
    destruct (isStart this r c) eqn:Hs.
    { intros [= <-]. eapply handled_drag; [done|]. split; eauto. }
    destruct (isEnd this r c) eqn:He.
    { intros [= <-]. eapply handled_drag; [done|]. split; eauto. }
    apply isStart_false in Hs. apply isEnd_false in He.
    unfold toggleWall.
    rewrite (proj2 (isStart_false this r c) Hs), (proj2 (isEnd_false this r c) He).
    simpl. case_bool_decide.
    + apply fst_findPath_Handled. by constructor.
    + apply fst_findPath_Handled. by constructor.
  - unfold handleMouseEnter.
    destruct (isDragging this) eqn:Hd; simpl; [|by intros [= <-]; constructor].
    case_bool_decide as Hsome; simpl; [|by intros [= <-]; constructor].
    case_bool_decide as Ht; simpl.
    + destruct (isEnd this r c) eqn:He; simpl.
      * rewrite bool_decide_eq_false_2 by (rewrite Ht; discriminate). simpl.
        intros [= <-]. by constructor.
      * apply isEnd_false in He. apply fst_findPath_Handled. by constructor.
    + case_bool_decide as Ht'; simpl; [|by intros [= <-]; constructor].
      destruct (isStart this r c) eqn:Hs; simpl; [by intros [= <-]; constructor|].
      apply isStart_false in Hs. apply fst_findPath_Handled. by constructor.
  - intros [= <-]. eapply handled_drag; [done|]. split; [done|by intros [??]].
  - unfold clearWalls. apply fst_findPath_Handled. constructor.
Qed.

(** X13: an event leaves the object as it is, or changes the drag state
    alone, or makes exactly one edit (the clear button empties the wall
    set; a press away from start and end adds or removes the key of the
    pressed cell; entering a cell while dragging an endpoint moves that
    endpoint there, never onto the other one) and then repaints the tiles
    from a search on the edited object. *)
Theorem X13_event_effect fuel this ev this' :
  handle fuel this ev = Some this' → Handled fuel this ev this'.
Proof. apply handle_Handled. Qed.

Lemma X13_event_effect_witness :
  ∃ this', handle 20 corridor (MouseDown 1 1) = Some this' ∧
           Handled 20 corridor (MouseDown 1 1) this'.
Proof.
  eexists. split; [vm_compute; reflexivity|].
  apply (X13_event_effect 20 corridor (MouseDown 1 1)). vm_compute. reflexivity.
Defined.

Lemma run_rule fuel (Q : Event → Prop) (P : PathfindingGrid → Prop) :
  (∀ this ev this', Q ev → P this → handle fuel this ev = Some this' → P this') →
  ∀ evs this this',
    Forall Q evs → P this → run fuel this evs = Some this' → P this'.
Proof.
  intros Hstep evs. induction evs as [|ev evs IH]; intros this this' HQ HP; simpl.
  - by intros [= <-].
  - destruct (handle fuel this ev) as [this1|] eqn:Hh; simpl; [|done].
    apply Forall_cons in HQ as [Hev HQ].
    apply IH; [done|]. by eapply Hstep.
Qed.

Lemma new_PathfindingGrid_Some fuel R C this0 :
  new_PathfindingGrid fuel R C = Some this0 →
  ∃ res, search fuel (blank R C) = Some res ∧
         this0 = renderGrid (blank R C) (path res) (visitedCells res).
Proof.
  unfold new_PathfindingGrid.
  destruct (findPath fuel _) as [[this1 ret]|] eqn:Hf; simpl; [|done].
  intros [= <-]. apply findPath_Some in Hf as (res & Hres & -> & _).
  exists res. split; [|done].
  rewrite <-Hres. apply search_same_model, renderGrid_same_model.
Qed.

Lemma SessionInv_new fuel R C this0 :
  new_PathfindingGrid fuel R C = Some this0 → SessionInv R C this0.
Proof.
  intros (res & _ & ->)%new_PathfindingGrid_Some.
  split; simpl; done.
Qed.

Lemma SessionInv_step fuel R C this ev this' :
  SessionInv R C this → handle fuel this ev = Some this' →
  SessionInv R C this'.
Proof.
  intros [Hr Hc He Hd] HH%handle_Handled.
  destruct HH as [->|d t -> Hdt|X res HE Hres ->]; [done|by split|].
  destruct HE; split; simpl; try done; congruence.
Qed.

(** X14: in every session, whatever the events, start and end stay
    different cells, the dimensions stay those given to the constructor,
    and a drag is in progress exactly when a drag type is set. *)
Theorem X14_session_invariant fuel R C evs this0 this :
  new_PathfindingGrid fuel R C = Some this0 →
  run fuel this0 evs = Some this →
  startPos this ≠ endPos this ∧ rows this = R ∧ cols this = C ∧
  (isDragging this = true ↔ is_Some (dragType this)).
Proof.
  intros Hnew Hrun.
  assert (SessionInv R C this) as [? ? ? ?]; [|done].
  apply (run_rule fuel (fun _ => True) (SessionInv R C)) with evs this0;
    [|by apply Forall_true|by eapply SessionInv_new|done].
  intros t ev t' _. apply SessionInv_step.
Qed.

Lemma X14_session_invariant_witness :
  ∃ this0 this,
    new_PathfindingGrid 20 3 3 = Some this0 ∧
    run 20 this0 [MouseDown 1 1; MouseEnter 2 2; MouseUp] = Some this ∧
    startPos this ≠ endPos this ∧ rows this = 3 ∧ cols this = 3 ∧
    (isDragging this = true ↔ is_Some (dragType this)).
Proof.
  eexists _, _. split; [vm_compute; reflexivity|]. split; [vm_compute; reflexivity|].
  eapply (X14_session_invariant 20 3 3 [MouseDown 1 1; MouseEnter 2 2; MouseUp]);
    [vm_compute; reflexivity|vm_compute; reflexivity].
Defined.

Lemma Fresh_rendered X fuel res :
  search fuel X = Some res →
  Fresh (renderGrid X (path res) (visitedCells res)).
Proof.
  intros Hres fuel' res' Hres'.
  rewrite <-(search_same_model X) in Hres' by apply renderGrid_same_model.
  by rewrite (search_fuel_irrelevant _ _ _ _ _ Hres' Hres).
Qed.

Lemma Fresh_step fuel this ev this' :
  Fresh this → handle fuel this ev = Some this' → Fresh this'.
Proof.
  intros HF HH%handle_Handled.
  destruct HH as [->|d t -> Hdt|X res HE Hres ->]; [exact HF| |].
  - intros fuel' res' Hres'. apply (HF fuel' res').
    rewrite <-Hres'. apply search_same_model. by repeat split.
  - by eapply Fresh_rendered.
Qed.

(** X15: in every session the tiles are up to date: after any events they
    are the ones [renderGrid] paints from the search on the object as it
    is. *)
Theorem X15_tiles_up_to_date fuel R C evs this0 this :
  new_PathfindingGrid fuel R C = Some this0 →
  run fuel this0 evs = Some this →
  ∃ res, search (enough_fuel this) this = Some res ∧
         grid this = grid (renderGrid this (path res) (visitedCells res)).
Proof.
  intros Hnew Hrun.
  assert (Fresh this) as HF.
  { apply (run_rule fuel (fun _ => True) Fresh) with evs this0;
      [|by apply Forall_true| |done].
    - intros t ev t' _. apply Fresh_step.
    - apply new_PathfindingGrid_Some in Hnew as (res & Hres & ->).
      by eapply Fresh_rendered. }
  destruct (search_total this (enough_fuel this)) as [res Hres]; [lia|].
  exists res. split; [done|]. by apply (HF _ _ Hres).
Qed.

Lemma X15_tiles_up_to_date_witness :
  ∃ this0 this,
    new_PathfindingGrid 20 3 3 = Some this0 ∧
    run 20 this0 [MouseDown 1 1; ClearClick] = Some this ∧
    ∃ res, search (enough_fuel this) this = Some res ∧
           grid this = grid (renderGrid this (path res) (visitedCells res)).
Proof.
  eexists _, _. split; [vm_compute; reflexivity|]. split; [vm_compute; reflexivity|].
  eapply (X15_tiles_up_to_date 20 3 3 [MouseDown 1 1; ClearClick]);
    [vm_compute; reflexivity|vm_compute; reflexivity].
Defined.

Lemma Bounded_step fuel R C this ev this' :
  event_in_grid R C ev →
  SessionInv R C this ∧ Bounded this →
  handle fuel this ev = Some this' →
  SessionInv R C this' ∧ Bounded this'.
Proof.
  intros Hev [HS HB] Hh. split; [by eapply SessionInv_step|].
  destruct HS as [Hr Hc _ _].
  apply handle_Handled in Hh.
  destruct Hh as [->|d t -> Hdt|X res HE Hres ->]; [exact HB|exact HB|].
  destruct HB as (Hs & He & Hw).
  unfold Bounded, in_bounds in *.
  destruct HE; simpl in *; (split; [|split]); try done; try lia.
  - intros k [Hk _]%elem_of_difference. by apply Hw.
  - intros k [->%elem_of_singleton|Hk]%elem_of_union; [|by apply Hw].
    exists (mkPos r c). split; [done|]. simpl. lia.
Qed.

(** X16: on a grid of at least 16 x 16 tiles, in every session whose tile
    events come from tiles of the grid, start and end lie inside the grid
    and every key of the wall set is the key of a cell inside the grid. *)
Theorem X16_session_in_bounds fuel R C evs this0 this :
  15 < R → 15 < C →
  Forall (event_in_grid R C) evs →
  new_PathfindingGrid fuel R C = Some this0 →
  run fuel this0 evs = Some this →
  in_bounds this (startPos this) ∧ in_bounds this (endPos this) ∧
  ∀ k, k ∈ walls this → ∃ p, k = key p ∧ in_bounds this p.
Proof.
  intros HR HC Hevs Hnew Hrun.
  assert (SessionInv R C this ∧ Bounded this) as [_ HB]; [|done].
  apply (run_rule fuel (event_in_grid R C)
           (fun t => SessionInv R C t ∧ Bounded t)) with evs this0;
    [|done| |done].
  - intros t ev t'. apply Bounded_step.
  - split; [by eapply SessionInv_new|].
    apply new_PathfindingGrid_Some in Hnew as (res & _ & ->).
    unfold Bounded, in_bounds. simpl. split; [lia|]. split; [lia|].
    intros k Hk. by apply not_elem_of_empty in Hk.
Qed.

Lemma X16_session_in_bounds_witness :
  ∃ this0 this,
    new_PathfindingGrid 300 16 16 = Some this0 ∧
    run 300 this0 [MouseDown 5 5; MouseEnter 14 14; MouseUp] = Some this ∧
    in_bounds this (startPos this) ∧ in_bounds this (endPos this) ∧
    ∀ k, k ∈ walls this → ∃ p, k = key p ∧ in_bounds this p.
Proof.
  eexists _, _. split; [vm_compute; reflexivity|]. split; [vm_compute; reflexivity|].
  eapply (X16_session_in_bounds 300 16 16
            [MouseDown 5 5; MouseEnter 14 14; MouseUp]);
    [lia|lia| |vm_compute; reflexivity|vm_compute; reflexivity].
  repeat (apply Forall_cons; split; [simpl; try lia; done|]). apply Forall_nil_2.
Defined.

Lemma search_start_visited this fuel res :
  startPos this ≠ endPos this →
  search fuel this = Some res → key (startPos this) ∈ visitedCells res.
Proof.
  intros Hne Hres. destruct (found res) eqn:Hf.
  - apply (search_path_visited this fuel res Hres Hf); [by left|done].
  - pose proof (search_Post _ _ _ Hres) as HP.
    apply (post_none _ _ HP Hf). constructor.
Qed.

(** X17: while start is dragged, entering any cell other than end moves
    start there and leaves end and the walls alone, also when the cell is a
    wall: start then sits on a wall, and every later search has that wall
    cell in its visited set. *)
Theorem X17_start_dragged_onto_wall fuel this r c this' :
  isDragging this = true → dragType this = Some DragStart →
  isEnd this r c = false →
  handleMouseEnter fuel this r c = Some this' →
  startPos this' = mkPos r c ∧ endPos this' = endPos this ∧
  walls this' = walls this ∧
  (isWall this r c = true →
   ∀ f res, search f this' = Some res →
     key (startPos this') ∈ walls this' ∧
     key (startPos this') ∈ visitedCells res).
Proof.
  intros Hd Ht He. unfold handleMouseEnter. rewrite Hd, Ht, He. simpl.
  destruct (findPath fuel _) as [[this1 ret]|] eqn:Hf; simpl; [|done].
  intros [= <-]. apply findPath_Some in Hf as (res0 & _ & -> & _). simpl.
  repeat split; try done.
  - unfold isWall in H. by apply bool_decide_eq_true in H.
  - apply (search_start_visited
             (renderGrid (set_startPos this (mkPos r c)) (path res0)
                (visitedCells res0)) f res); [|done].
    simpl. by apply isEnd_false in He.
Qed.

(** The 1 x 3 grid with a wall in the middle, start being dragged. *)
Lemma X17_start_dragged_onto_wall_witness :
  ∃ this',
    handleMouseEnter 50 (set_drag blocked true (Some DragStart)) 0 1 = Some this' ∧
    startPos this' = mkPos 0 1 ∧ key (startPos this') ∈ walls this'.
Proof.
  eexists. split; [vm_compute; reflexivity|].
  edestruct (X17_start_dragged_onto_wall 50
               (set_drag blocked true (Some DragStart)) 0 1)
    as (Hs & _ & _ & Hw); [reflexivity|reflexivity|reflexivity|
                           vm_compute; reflexivity|].
  split; [exact Hs|].
  edestruct (Hw eq_refl 50%nat) as [Hin _]; [vm_compute; reflexivity|exact Hin].
Defined.

Lemma fst_findPath_total X fuel :
  (enough_fuel X ≤ fuel)%nat → is_Some (fst <$> findPath fuel X).
Proof.
  intros Hf. destruct (findPath_total X fuel Hf) as (res & _ & ->). simpl. eauto.
Qed.

Lemma handle_total fuel R C this ev :
  rows this = R → cols this = C →
  (enough_fuel (blank R C) ≤ fuel)%nat →
  is_Some (handle fuel this ev).
Proof.
  intros Hr Hc Hf.
  assert (∀ X, rows X = rows this → cols X = cols this →
            is_Some (fst <$> findPath fuel X)) as Hfp.
  { intros X HXr HXc. apply fst_findPath_total.
    rewrite (enough_fuel_dims X (blank R C)); [done|simpl; congruence..]. }
  destruct ev as [r c|r c| |]; simpl.
  - unfold handleMouseDown, toggleWall.
    destruct (isStart this r c); [eauto|].
    destruct (isEnd this r c); [eauto|]. simpl.
    case_bool_decide; by apply Hfp.
  - unfold handleMouseEnter.
    repeat (case_match; eauto); by apply Hfp.
  - eauto.
  - unfold clearWalls. by apply Hfp.
Qed.

Lemma run_total fuel R C evs : ∀ this,
  SessionInv R C this →
  (enough_fuel (blank R C) ≤ fuel)%nat →
  is_Some (run fuel this evs).
Proof.
  induction evs as [|ev evs IH]; intros this HS Hf; simpl; [eauto|].
  destruct (handle_total fuel R C this ev) as [this1 H1];
    [apply HS|apply HS|done|].
  rewrite H1. simpl. apply IH; [|done]. by eapply SessionInv_step.
Qed.

(** X18: the constructor and every handler terminate: with
    [enough_fuel] for the grid dimensions, the constructor and any list of
    events run to completion. *)
Theorem X18_session_terminates R C evs extra :
  ∃ this0 this,
    new_PathfindingGrid (enough_fuel (blank R C) + extra) R C = Some this0 ∧
    run (enough_fuel (blank R C) + extra) this0 evs = Some this.
Proof.
  destruct (fst_findPath_total (renderGrid (blank R C) [] ∅)
              (enough_fuel (blank R C) + extra)) as [this0 H0].
  { rewrite (enough_fuel_dims _ (blank R C)) by done. lia. }
  destruct (run_total (enough_fuel (blank R C) + extra) R C evs this0)
    as [this Hrun]; [by eapply SessionInv_new|lia|].
  by exists this0, this.
Qed.

(** ** Endpoints on walls or outside the grid *)

(** X19: when end differs from start and is a wall or lies outside the
    grid, the search reports not found. *)
Theorem X19_end_blocked_not_found this fuel r :
  startPos this ≠ endPos this →
  key (endPos this) ∈ walls this ∨ ¬ in_bounds this (endPos this) →
  search fuel this = Some r →
  found r = false ∧ path r = [].
Proof.
  intros Hne Hblocked Hr. pose proof (search_Post _ _ _ Hr) as HP.
  destruct (found r) eqn:Hf.
  - destruct (post_found _ _ HP Hf) as (Hw & Hl & _).
    apply (walk_reach _ _ _ _ Hw) in Hl.
    apply reach_in_bounds in Hl as [?|[? ?]]; [congruence|tauto].
  - split; [done|]. by destruct (post_none _ _ HP Hf).
Qed.

Lemma X19_end_blocked_not_found_witness :
  ∃ r, search 50 (set_endPos blocked (mkPos 0 1)) = Some r ∧
       found r = false ∧ path r = [].
Proof.
  eexists. split; [vm_compute; reflexivity|].
  apply (X19_end_blocked_not_found (set_endPos blocked (mkPos 0 1)) 50).
  - discriminate.
  - left. vm_compute. reflexivity.
  - vm_compute. reflexivity.
Defined.

(** X20: every cell of a returned path lies inside the grid, wherever
    start is. *)
Theorem X20_path_in_bounds this fuel r p :
  search fuel this = Some r → p ∈ path r → in_bounds this p.
Proof.
  intros Hr Hp. pose proof (search_Post _ _ _ Hr) as HP.
  destruct (found r) eqn:Hf.
  - destruct (post_found _ _ HP Hf) as (Hw & _ & _).
    by destruct (walk_elem _ _ _ _ Hw Hp).
  - destruct (post_none _ _ HP Hf) as [E _]. rewrite E in Hp.
    by apply elem_of_nil in Hp.
Qed.

Lemma X20_path_in_bounds_witness : in_bounds corridor (mkPos 2 1).
Proof.
  eapply (X20_path_in_bounds corridor 20);
    [vm_compute; reflexivity|].
  simpl. rewrite !elem_of_cons. tauto.
Defined.
